(** * Vesper listings map: the map-synchronisation effect of [MapInterface]

    A shallow embedding of the second [useEffect] of [frontend/index.js]
    (the "Initialize map and markers" effect) together with the geocoder
    callbacks it registers.  JavaScript is single threaded: one run of the
    effect body is one atomic step, and every geocoder callback is another
    atomic step that happens later, in whatever order the geocoding service
    answers.  The world below holds what those steps share: the React refs
    ([markersRef], [circlesRef], [mapInstanceRef]), the overlay objects they
    point to, the closure environment of every run of the effect (its own
    [bounds], [markerCount] and [totalRecords]) and the geocode requests that
    are still in flight. *)

From Stdlib Require Import QArith Ascii String.
From stdpp Require Import base option list strings numbers.

Local Open Scope string_scope.
Local Open Scope nat_scope.
Local Open Scope list_scope.
Set Warnings "-register-all".

(** ** JavaScript values read from cells *)

Module Js.

(** The cell values the effect can meet: [null]/[undefined], strings,
    numbers, arrays (linked records) and objects with named properties. *)
Inductive Value :=
| Null
| Undefined
| Str (s : string)
| Num (q : Q)
| Arr (items : list Value)
| Obj (props : list (string * Value)).

(** Evaluation of an expression that may throw. *)
Inductive Thrown (A : Type) :=
| Ret (a : A)
| Throw (err : string).
Arguments Ret {A} a.
Arguments Throw {A} err.

#[global] Instance thrown_bind : MBind Thrown := λ A B k m,
  match m with
  | Ret a => k a
  | Throw e => Throw e
  end.

Definition isEmptyString (s : string) : bool :=
  match s with
  | EmptyString => true
  | String _ _ => false
  end.

(** [if (v)]: the truthiness of a value. *)
Definition truthy (v : Value) : bool :=
  match v with
  | Null | Undefined => false
  | Str s => negb (isEmptyString s)
  | Num q => negb (Qeq_bool q 0)
  | Arr _ | Obj _ => true
  end.

(** White space removed by [String.prototype.trim], on the ASCII range:
    tab, line feed, vertical tab, form feed, carriage return, space. *)
Definition isWhiteSpace (a : ascii) : bool :=
  let n := nat_of_ascii a in
  (Nat.leb 9 n && Nat.leb n 13) || Nat.eqb n 32.

Fixpoint trimStart (s : string) : string :=
  match s with
  | EmptyString => EmptyString
  | String a s' => if isWhiteSpace a then trimStart s' else s
  end.

Definition trim (s : string) : string :=
  String.rev (trimStart (String.rev (trimStart s))).

Fixpoint assoc (k : string) (props : list (string * Value)) : Value :=
  match props with
  | [] => Undefined
  | (k', v) :: rest => if String.eqb k k' then v else assoc k rest
  end.

(** [v.name]: a TypeError on [null] and [undefined], [undefined] on a
    value without that property. *)
Definition getName (v : Value) : Thrown Value :=
  match v with
  | Null | Undefined => Throw "TypeError"
  | Obj props => Ret (assoc "name" props)
  | Str _ | Num _ | Arr _ => Ret Undefined
  end.

(** [v.length > 0] for a truthy [v]. *)
Definition lengthPositive (v : Value) : bool :=
  match v with
  | Str s => negb (isEmptyString s)
  | Arr items => match items with [] => false | _ :: _ => true end
  | Obj props => match assoc "length" props with
                 | Num q => Qle_bool 0 q && negb (Qeq_bool q 0)
                 | _ => false
                 end
  | Null | Undefined | Num _ => false
  end.

(** [v[0]] for a truthy [v]. *)
Definition first (v : Value) : Value :=
  match v with
  | Arr (x :: _) => x
  | Str (String a _) => Str (String a EmptyString)
  | Obj props => assoc "0" props
  | _ => Undefined
  end.

End Js.

Import Js.

(** ** The data source and the field mapping *)

(** An Airtable record as the effect uses it: its name and the two cell
    readers, either of which may throw (unknown field, deleted record). *)
Record AirtableRecord := {
  name : string;
  getCellValue : string → Thrown Value;
  getCellValueAsString : string → Thrown string;
}.

Record Field := { id : string }.
Record Table := { tableId : string }.

(** [customPropertyValueByKey], restricted to the keys the effect reads. *)
Record CustomProperties := {
  requirementAddressField : option Field;
  listingAddressField : option Field;
  listingUrlField : option Field;
  listingDistanceField : option Field;
  listingDriveTimeField : option Field;
  listingRequirementsField : option Field;
  listingImageUrlField : option Field;
  listingPropertyTypeField : option Field;
}.

(** What one run of the effect reads from the component. *)
Record Inputs := {
  mapsLoaded : bool;
  mapContainer : bool;                  (* mapContainerRef.current is set *)
  requirementsTable : option Table;
  listingsTable : option Table;
  requirementRecords : option (list AirtableRecord);
  listingRecords : option (list AirtableRecord);
  customPropertyValueByKey : CustomProperties;
}.

(** ** The mapping SDK objects *)

Record LatLng := { lat : Q; lng : Q }.

(** One entry of the geocoder's [results]; [location] is
    [geometry.location]. *)
Record GeocoderResult := { location : LatLng }.

Record Icon := {
  scale : Q;
  fillColor : string;
  strokeWeight : Q;
}.

(** The values interpolated into the info-window markup. *)
Inductive Popup :=
| RequirementContent (siteCode : string) (address : Value)
| ListingContent (imageUrl url propertyType : Value) (requirementName : Value)
                 (address : Value) (distance driveTime : Value).

(** A [google.maps.Marker] object.  [markerOnMap] is its [map] property
    ([false] after [setMap(null)]); [markerPass] records which run of the
    effect constructed it and is read by no operation. *)
Record Marker := {
  markerPosition : LatLng;
  markerTitle : option Value;
  markerIcon : Icon;
  markerContent : Popup;
  markerOnMap : bool;
  markerPass : nat;
}.

(** A [google.maps.Circle] object. *)
Record Circle := {
  circleCenter : LatLng;
  circleRadius : Q;
  circleFillColor : string;
  circleOnMap : bool;
  circlePass : nat;
}.

(** The locals of one run of the effect, shared by the callbacks it
    registers: [bounds] (the positions it was extended with), [markerCount]
    and [totalRecords]. *)
Record PassEnv := {
  bounds : list LatLng;
  markerCount : nat;
  totalRecords : nat;
}.

(** The closure handed to [geocoder.geocode]: the pass whose locals it
    captured, the address it was issued for and the values its markup
    interpolates. *)
Inductive Callback :=
| RequirementCallback (pass : nat) (address : Value) (siteCode : string)
| ListingCallback (pass : nat) (address : Value)
                  (imageUrl url propertyType requirementName distance driveTime : Value).

Definition callbackPass (cb : Callback) : nat :=
  match cb with
  | RequirementCallback p _ _ => p
  | ListingCallback p _ _ _ _ _ _ _ => p
  end.

Definition callbackAddress (cb : Callback) : Value :=
  match cb with
  | RequirementCallback _ a _ => a
  | ListingCallback _ a _ _ _ _ _ _ => a
  end.

Inductive Warning :=
| GeocodingFailedFor (address : Value) (status : string)
| NoAddressFoundForRequirement (position : nat)
| ErrorProcessingRequirement (err : string)
| ErrorProcessingListing (err : string).

Record World := {
  mapInstance : bool;                   (* mapInstanceRef.current is set *)
  markerHeap : list Marker;             (* every Marker constructed so far *)
  circleHeap : list Circle;             (* every Circle constructed so far *)
  markersRef : list nat;                (* markersRef.current, as handles *)
  circlesRef : list nat;                (* circlesRef.current, as handles *)
  passes : list PassEnv;                (* closure environments, by pass *)
  inflight : list Callback;             (* geocode requests not yet answered *)
  fitBoundsCalls : list (nat * list LatLng);
  console : list Warning;               (* console.warn *)
  uncaught : list string;               (* errors thrown out of a callback *)
}.

Definition initialWorld : World :=
  {| mapInstance := false; markerHeap := []; circleHeap := [];
     markersRef := []; circlesRef := []; passes := []; inflight := [];
     fitBoundsCalls := []; console := []; uncaught := [] |}.

(** ** Field updates of the world *)

Definition setMapInstance (b : bool) (w : World) : World :=
  {| mapInstance := b; markerHeap := markerHeap w; circleHeap := circleHeap w;
     markersRef := markersRef w; circlesRef := circlesRef w;
     passes := passes w; inflight := inflight w;
     fitBoundsCalls := fitBoundsCalls w; console := console w;
     uncaught := uncaught w |}.

Definition setMarkerHeap (h : list Marker) (w : World) : World :=
  {| mapInstance := mapInstance w; markerHeap := h; circleHeap := circleHeap w;
     markersRef := markersRef w; circlesRef := circlesRef w;
     passes := passes w; inflight := inflight w;
     fitBoundsCalls := fitBoundsCalls w; console := console w;
     uncaught := uncaught w |}.

Definition setCircleHeap (h : list Circle) (w : World) : World :=
  {| mapInstance := mapInstance w; markerHeap := markerHeap w; circleHeap := h;
     markersRef := markersRef w; circlesRef := circlesRef w;
     passes := passes w; inflight := inflight w;
     fitBoundsCalls := fitBoundsCalls w; console := console w;
     uncaught := uncaught w |}.

Definition setMarkersRef (r : list nat) (w : World) : World :=
  {| mapInstance := mapInstance w; markerHeap := markerHeap w;
     circleHeap := circleHeap w; markersRef := r; circlesRef := circlesRef w;
     passes := passes w; inflight := inflight w;
     fitBoundsCalls := fitBoundsCalls w; console := console w;
     uncaught := uncaught w |}.

Definition setCirclesRef (r : list nat) (w : World) : World :=
  {| mapInstance := mapInstance w; markerHeap := markerHeap w;
     circleHeap := circleHeap w; markersRef := markersRef w; circlesRef := r;
     passes := passes w; inflight := inflight w;
     fitBoundsCalls := fitBoundsCalls w; console := console w;
     uncaught := uncaught w |}.

Definition setPasses (ps : list PassEnv) (w : World) : World :=
  {| mapInstance := mapInstance w; markerHeap := markerHeap w;
     circleHeap := circleHeap w; markersRef := markersRef w;
     circlesRef := circlesRef w; passes := ps; inflight := inflight w;
     fitBoundsCalls := fitBoundsCalls w; console := console w;
     uncaught := uncaught w |}.

Definition setInflight (rq : list Callback) (w : World) : World :=
  {| mapInstance := mapInstance w; markerHeap := markerHeap w;
     circleHeap := circleHeap w; markersRef := markersRef w;
     circlesRef := circlesRef w; passes := passes w; inflight := rq;
     fitBoundsCalls := fitBoundsCalls w; console := console w;
     uncaught := uncaught w |}.

Definition setFitBoundsCalls (c : list (nat * list LatLng)) (w : World) : World :=
  {| mapInstance := mapInstance w; markerHeap := markerHeap w;
     circleHeap := circleHeap w; markersRef := markersRef w;
     circlesRef := circlesRef w; passes := passes w; inflight := inflight w;
     fitBoundsCalls := c; console := console w; uncaught := uncaught w |}.

Definition setConsole (c : list Warning) (w : World) : World :=
  {| mapInstance := mapInstance w; markerHeap := markerHeap w;
     circleHeap := circleHeap w; markersRef := markersRef w;
     circlesRef := circlesRef w; passes := passes w; inflight := inflight w;
     fitBoundsCalls := fitBoundsCalls w; console := c; uncaught := uncaught w |}.

Definition setUncaught (u : list string) (w : World) : World :=
  {| mapInstance := mapInstance w; markerHeap := markerHeap w;
     circleHeap := circleHeap w; markersRef := markersRef w;
     circlesRef := circlesRef w; passes := passes w; inflight := inflight w;
     fitBoundsCalls := fitBoundsCalls w; console := console w; uncaught := u |}.

(** ** The SDK calls the effect makes *)

(** [console.warn(...)]. *)
Definition warn (msg : Warning) (w : World) : World :=
  setConsole (console w ++ [msg]) w.

(** [marker.setMap(null)] and [circle.setMap(null)]. *)
Definition detachMarker (m : Marker) : Marker :=
  {| markerPosition := markerPosition m; markerTitle := markerTitle m;
     markerIcon := markerIcon m; markerContent := markerContent m;
     markerOnMap := false; markerPass := markerPass m |}.

Definition detachCircle (c : Circle) : Circle :=
  {| circleCenter := circleCenter c; circleRadius := circleRadius c;
     circleFillColor := circleFillColor c; circleOnMap := false;
     circlePass := circlePass c |}.

(** [handles.forEach(x => x.setMap(null))] on the objects of a heap. *)
Definition detachAll {A} (d : A → A) (handles : list nat) (heap : list A)
  : list A :=
  foldl (λ h i, alter d i h) heap handles.

(** [markersRef.current.forEach(marker => marker.setMap(null))]. *)
Definition detachMarkers (handles : list nat) (heap : list Marker) : list Marker :=
  detachAll detachMarker handles heap.

(** [circlesRef.current.forEach(circle => circle.setMap(null))]. *)
Definition detachCircles (handles : list nat) (heap : list Circle) : list Circle :=
  detachAll detachCircle handles heap.

(** [bounds.extend(position)] and [bounds.isEmpty()]: the region is kept as
    the positions it was extended with, and is empty when there is none. *)
Definition extend (position : LatLng) (env : PassEnv) : PassEnv :=
  {| bounds := bounds env ++ [position]; markerCount := markerCount env;
     totalRecords := totalRecords env |}.

Definition isEmpty (b : list LatLng) : bool :=
  match b with [] => true | _ :: _ => false end.

(** [geocoder.geocode({ address }, callback)]: the request is queued, the
    callback runs in a later step. *)
Definition geocode (cb : Callback) (w : World) : World :=
  setInflight (inflight w ++ [cb]) w.

(** [new google.maps.Marker({..., map})] followed by
    [markersRef.current.push(marker)]. *)
Definition pushMarker (m : Marker) (w : World) : World :=
  setMarkersRef (markersRef w ++ [length (markerHeap w)])
    (setMarkerHeap (markerHeap w ++ [m]) w).

Definition pushCircle (c : Circle) (w : World) : World :=
  setCirclesRef (circlesRef w ++ [length (circleHeap w)])
    (setCircleHeap (circleHeap w ++ [c]) w).

(** ** The effect body *)

(** [markerCount++]. *)
Definition tick (env : PassEnv) : PassEnv :=
  {| bounds := bounds env; markerCount := S (markerCount env);
     totalRecords := totalRecords env |}.

(** [checkAndFitBounds] of pass [p], on that pass's own locals. *)
Definition checkAndFitBounds (p : nat) (w : World) : World :=
  match passes w !! p with
  | None => w
  | Some env =>
      let env' := tick env in
      let w' := setPasses (<[p := env']> (passes w)) w in
      if Nat.eqb (markerCount env') (totalRecords env')
         && negb (isEmpty (bounds env'))
      then setFitBoundsCalls (fitBoundsCalls w' ++ [(p, bounds env')]) w'
      else w'
  end.

(** [field ? record.getCellValue(field.id) : null]. *)
Definition readCell (f : option Field) (record : AirtableRecord) : Thrown Value :=
  match f with
  | Some fld => getCellValue record (id fld)
  | None => Ret Null
  end.

(** [field ? record.getCellValueAsString(field.id) : null]. *)
Definition readCellAsString (f : option Field) (record : AirtableRecord)
  : Thrown Value :=
  match f with
  | Some fld => s ← getCellValueAsString record (id fld); Ret (Str s)
  | None => Ret Null
  end.

(** The [address] of a requirement, from its cell value: a string is
    trimmed, a non-empty array gives its first element, anything else
    leaves [null]. *)
Definition requirementAddress (addressValue : Value) : Value :=
  if truthy addressValue then
    match addressValue with
    | Str s => Str (trim s)
    | Arr (x :: _) => x
    | _ => Null
    end
  else Null.

(** The reads of the requirement [try] block. *)
Definition readRequirement (props : CustomProperties) (record : AirtableRecord)
  : Thrown Value :=
  addressValue ← readCell (requirementAddressField props) record;
  Ret (requirementAddress addressValue).

(** The body of [requirementRecords.forEach((record, index) => ...)]. *)
Definition processRequirement (props : CustomProperties) (p index : nat)
    (record : AirtableRecord) (w : World) : World :=
  match readRequirement props record with
  | Ret address =>
      let siteCode := name record in
      if truthy address
      then geocode (RequirementCallback p address siteCode) w
      else checkAndFitBounds p
             (warn (NoAddressFoundForRequirement (index + 1)) w)
  | Throw err =>
      checkAndFitBounds p (warn (ErrorProcessingRequirement err) w)
  end.

Record ListingFields := {
  lfAddress : Value;
  lfUrl : Value;
  lfDistance : Value;
  lfDriveTime : Value;
  lfImageUrl : Value;
  lfPropertyType : Value;
  lfRequirementName : Value;
}.

(** [requirementsValue[0].name || ''] under its two guards. *)
Definition readRequirementName (f : option Field) (record : AirtableRecord)
  : Thrown Value :=
  match f with
  | None => Ret (Str "")
  | Some fld =>
      requirementsValue ← getCellValue record (id fld);
      if truthy requirementsValue && lengthPositive requirementsValue
      then n ← getName (first requirementsValue);
           Ret (if truthy n then n else Str "")
      else Ret (Str "")
  end.

(** The reads of the listing [try] block, in source order. *)
Definition readListing (props : CustomProperties) (record : AirtableRecord)
  : Thrown ListingFields :=
  address ← readCellAsString (listingAddressField props) record;
  url ← readCellAsString (listingUrlField props) record;
  distance ← readCell (listingDistanceField props) record;
  driveTime ← readCell (listingDriveTimeField props) record;
  imageUrl ← readCellAsString (listingImageUrlField props) record;
  propertyType ← readCellAsString (listingPropertyTypeField props) record;
  requirementName ← readRequirementName (listingRequirementsField props) record;
  Ret {| lfAddress := address; lfUrl := url; lfDistance := distance;
         lfDriveTime := driveTime; lfImageUrl := imageUrl;
         lfPropertyType := propertyType;
         lfRequirementName := requirementName |}.

(** The body of [listingRecords.forEach(record => ...)]. *)
Definition processListing (props : CustomProperties) (p : nat)
    (record : AirtableRecord) (w : World) : World :=
  match readListing props record with
  | Ret lf =>
      if truthy (lfAddress lf)
      then geocode (ListingCallback p (lfAddress lf) (lfImageUrl lf) (lfUrl lf)
                      (lfPropertyType lf) (lfRequirementName lf)
                      (lfDistance lf) (lfDriveTime lf)) w
      else checkAndFitBounds p w
  | Throw err =>
      checkAndFitBounds p (warn (ErrorProcessingListing err) w)
  end.

Fixpoint forEachRequirement (props : CustomProperties) (p index : nat)
    (records : list AirtableRecord) (w : World) : World :=
  match records with
  | [] => w
  | record :: rest =>
      forEachRequirement props p (S index) rest
        (processRequirement props p index record w)
  end.

Fixpoint forEachListing (props : CustomProperties) (p : nat)
    (records : list AirtableRecord) (w : World) : World :=
  match records with
  | [] => w
  | record :: rest =>
      forEachListing props p rest (processListing props p record w)
  end.

(** [(records?.length || 0)]. *)
Definition recordCount (records : option (list AirtableRecord)) : nat :=
  match records with
  | Some rs => length rs
  | None => 0
  end.

Definition isSome {A} (o : option A) : bool :=
  match o with Some _ => true | None => false end.

(** The guard at the top of the effect: nothing is done unless the SDK is
    loaded, the container is mounted and both tables are configured. *)
Definition ready (inp : Inputs) : bool :=
  mapsLoaded inp && mapContainer inp
  && isSome (requirementsTable inp) && isSome (listingsTable inp).

(** "Clear existing markers and circles". *)
Definition clearOverlays (w : World) : World :=
  let w1 := setMarkersRef []
              (setMarkerHeap (detachMarkers (markersRef w) (markerHeap w)) w) in
  setCirclesRef []
    (setCircleHeap (detachCircles (circlesRef w1) (circleHeap w1)) w1).

(** The locals declared by one run of the effect. *)
Definition newPass (inp : Inputs) : PassEnv :=
  {| bounds := []; markerCount := 0;
     totalRecords := recordCount (requirementRecords inp)
                     + recordCount (listingRecords inp) |}.

(** One run of the effect body. *)
Definition syncEffect (inp : Inputs) (w : World) : World :=
  if negb (ready inp) then w
  else
    let w1 := if mapInstance w then w else setMapInstance true w in
    let w2 := clearOverlays w1 in
    let p := length (passes w2) in
    let w3 := setPasses (passes w2 ++ [newPass inp]) w2 in
    let props := customPropertyValueByKey inp in
    let w4 := match requirementRecords inp, requirementsTable inp with
              | Some records, Some _ => forEachRequirement props p 0 records w3
              | _, _ => w3
              end in
    match listingRecords inp, listingsTable inp with
    | Some records, Some _ => forEachListing props p records w4
    | _, _ => w4
    end.

(** ** The geocoder callbacks *)

Definition requirementIcon : Icon :=
  {| scale := 8; fillColor := "#1976d2"; strokeWeight := 1.6 |}.

Definition listingIcon : Icon :=
  {| scale := 5.2; fillColor := "#f74022"; strokeWeight := 1.04 |}.

(** [radius: 24140.16, // 15 miles in meters]. *)
Definition requirementRadius : Q := 24140.16.

(** [status === 'OK' && results[0]]: the first result when the test
    passes.  With status OK the index is evaluated, which throws on a
    [null] result list. *)
Definition firstResult (results : option (list GeocoderResult)) (status : string)
  : Thrown (option GeocoderResult) :=
  if String.eqb status "OK" then
    match results with
    | None => Throw "TypeError"
    | Some [] => Ret None
    | Some (r :: _) => Ret (Some r)
    end
  else Ret None.

(** [bounds.extend(position)] on the locals of pass [p]. *)
Definition extendBounds (p : nat) (position : LatLng) (w : World) : World :=
  setPasses (alter (extend position) p (passes w)) w.

Definition requirementMarker (p : nat) (onMap : bool) (position : LatLng)
    (address : Value) (siteCode : string) : Marker :=
  {| markerPosition := position; markerTitle := Some address;
     markerIcon := requirementIcon;
     markerContent := RequirementContent siteCode address;
     markerOnMap := onMap; markerPass := p |}.

Definition requirementCircle (p : nat) (onMap : bool) (position : LatLng)
  : Circle :=
  {| circleCenter := position; circleRadius := requirementRadius;
     circleFillColor := "#1976d2"; circleOnMap := onMap; circlePass := p |}.

Definition listingMarker (p : nat) (onMap : bool) (position : LatLng)
    (address imageUrl url propertyType requirementName distance driveTime : Value)
  : Marker :=
  {| markerPosition := position; markerTitle := None;
     markerIcon := listingIcon;
     markerContent := ListingContent imageUrl url propertyType requirementName
                        address distance driveTime;
     markerOnMap := onMap; markerPass := p |}.

(** The callback of a geocode request, applied to the service's answer. *)
Definition runCallback (cb : Callback) (results : option (list GeocoderResult))
    (status : string) (w : World) : Thrown World :=
  r0 ← firstResult results status;
  match cb, r0 with
  | RequirementCallback p address siteCode, Some r =>
      let position := location r in
      let w1 := pushMarker
                  (requirementMarker p (mapInstance w) position address siteCode)
                  w in
      let w2 := pushCircle (requirementCircle p (mapInstance w) position) w1 in
      Ret (checkAndFitBounds p (extendBounds p position w2))
  | ListingCallback p address imageUrl url propertyType requirementName
                    distance driveTime, Some r =>
      let position := location r in
      let w1 := pushMarker
                  (listingMarker p (mapInstance w) position address imageUrl url
                     propertyType requirementName distance driveTime) w in
      Ret (checkAndFitBounds p (extendBounds p position w1))
  | _, None =>
      Ret (checkAndFitBounds (callbackPass cb)
             (warn (GeocodingFailedFor (callbackAddress cb) status) w))
  end.

(** ** Steps and runs *)

Inductive Event :=
| EffectRuns (inp : Inputs)
| GeocoderAnswers (i : nat) (results : option (list GeocoderResult))
                  (status : string).

(** The geocoder answers request [i] of the in-flight list: the request is
    consumed and its callback runs; an error thrown by the callback is not
    caught by the effect's [try] (which has long returned). *)
Definition answer (i : nat) (results : option (list GeocoderResult))
    (status : string) (w : World) : World :=
  match inflight w !! i with
  | None => w
  | Some cb =>
      let w' := setInflight (delete i (inflight w)) w in
      match runCallback cb results status w' with
      | Ret w'' => w''
      | Throw err => setUncaught (uncaught w' ++ [err]) w'
      end
  end.

Definition step (e : Event) (w : World) : World :=
  match e with
  | EffectRuns inp => syncEffect inp w
  | GeocoderAnswers i results status => answer i results status w
  end.

Definition run (evs : list Event) (w : World) : World :=
  foldl (λ w e, step e w) w evs.

(** ** Observations on worlds and runs *)

(** The [fitBounds] calls made by pass [p]. *)
Definition fitCallsOf (p : nat) (w : World) : list (nat * list LatLng) :=
  filter (λ c, c.1 = p) (fitBoundsCalls w).

Definition fitCount (p : nat) (w : World) : nat := length (fitCallsOf p w).

(** The requests of pass [p] that the geocoder has not answered yet. *)
Definition inflightOf (p : nat) (w : World) : nat :=
  length (filter (λ cb, callbackPass cb = p) (inflight w)).

(** The markers and circles constructed by pass [p]. *)
Definition markersBy (p : nat) (w : World) : nat :=
  length (filter (λ m, markerPass m = p) (markerHeap w)).

Definition circlesBy (p : nat) (w : World) : nat :=
  length (filter (λ c, circlePass c = p) (circleHeap w)).

(** The overlays currently shown on the map. *)
Definition attachedMarkers (w : World) : list Marker :=
  filter (λ m, markerOnMap m = true) (markerHeap w).

Definition attachedCircles (w : World) : list Circle :=
  filter (λ c, circleOnMap c = true) (circleHeap w).

(** A callback takes its success branch when the status is OK and there is
    a first result. *)
Definition succeeds (results : option (list GeocoderResult)) (status : string)
  : bool :=
  match firstResult results status with
  | Ret (Some _) => true
  | _ => false
  end.

Definition isRequirementCallback (cb : Callback) : bool :=
  match cb with
  | RequirementCallback _ _ _ => true
  | ListingCallback _ _ _ _ _ _ _ _ => false
  end.

Definition ofPass (p : nat) (cb : Callback) : bool :=
  Nat.eqb (callbackPass cb) p.

Definition requirementOfPass (p : nat) (cb : Callback) : bool :=
  ofPass p cb && isRequirementCallback cb.

(** Whether event [e], met in world [w], is a successful geocode callback
    among those selected by [sel]. *)
Definition successAt (sel : Callback → bool) (e : Event) (w : World) : nat :=
  match e with
  | EffectRuns _ => 0
  | GeocoderAnswers i results status =>
      match inflight w !! i with
      | Some cb => if sel cb && succeeds results status then 1 else 0
      | None => 0
      end
  end.

(** The number of successful geocode callbacks selected by [sel] along a
    run from [w]. *)
Fixpoint successes (sel : Callback → bool) (evs : list Event) (w : World)
  : nat :=
  match evs with
  | [] => 0
  | e :: rest => successAt sel e w + successes sel rest (step e w)
  end.

(** ** What one record contributes to the synchronous part of a pass *)

Inductive Outcome :=
| Requested (cb : Callback)
| Skipped (msg : option Warning).

Definition requirementOutcome (props : CustomProperties) (p index : nat)
    (record : AirtableRecord) : Outcome :=
  match readRequirement props record with
  | Ret address =>
      if truthy address
      then Requested (RequirementCallback p address (name record))
      else Skipped (Some (NoAddressFoundForRequirement (index + 1)))
  | Throw err => Skipped (Some (ErrorProcessingRequirement err))
  end.

Definition listingOutcome (props : CustomProperties) (p : nat)
    (record : AirtableRecord) : Outcome :=
  match readListing props record with
  | Ret lf =>
      if truthy (lfAddress lf)
      then Requested (ListingCallback p (lfAddress lf) (lfImageUrl lf)
                        (lfUrl lf) (lfPropertyType lf) (lfRequirementName lf)
                        (lfDistance lf) (lfDriveTime lf))
      else Skipped None
  | Throw err => Skipped (Some (ErrorProcessingListing err))
  end.

Definition applyOutcome (p : nat) (w : World) (o : Outcome) : World :=
  match o with
  | Requested cb => geocode cb w
  | Skipped None => checkAndFitBounds p w
  | Skipped (Some msg) => checkAndFitBounds p (warn msg w)
  end.

Fixpoint requirementOutcomes (props : CustomProperties) (p index : nat)
    (records : list AirtableRecord) : list Outcome :=
  match records with
  | [] => []
  | record :: rest =>
      requirementOutcome props p index record
      :: requirementOutcomes props p (S index) rest
  end.

Definition listingOutcomes (props : CustomProperties) (p : nat)
    (records : list AirtableRecord) : list Outcome :=
  map (listingOutcome props p) records.

Definition outcomes (inp : Inputs) (p : nat) : list Outcome :=
  requirementOutcomes (customPropertyValueByKey inp) p 0
    (default [] (requirementRecords inp))
  ++ listingOutcomes (customPropertyValueByKey inp) p
       (default [] (listingRecords inp)).

Fixpoint requestsOf (os : list Outcome) : list Callback :=
  match os with
  | [] => []
  | Requested cb :: rest => cb :: requestsOf rest
  | Skipped _ :: rest => requestsOf rest
  end.

Fixpoint warningsOf (os : list Outcome) : list Warning :=
  match os with
  | [] => []
  | Skipped (Some msg) :: rest => msg :: warningsOf rest
  | _ :: rest => warningsOf rest
  end.

Fixpoint skippedCount (os : list Outcome) : nat :=
  match os with
  | [] => 0
  | Skipped _ :: rest => S (skippedCount rest)
  | Requested _ :: rest => skippedCount rest
  end.

(** The test of [checkAndFitBounds], on the locals after the increment. *)
Definition fitDecision (env : PassEnv) : bool :=
  Nat.eqb (markerCount env) (totalRecords env) && negb (isEmpty (bounds env)).

(** The [fitBounds] call pass [p] makes, if any, on locals [ps]. *)
Definition fitNow (p : nat) (ps : list PassEnv) : list (nat * list LatLng) :=
  match ps !! p with
  | Some env => if fitDecision env then [(p, bounds env)] else []
  | None => []
  end.


(** The overlays a callback constructs from a first result. *)
Definition markerFor (cb : Callback) (onMap : bool) (r : GeocoderResult)
  : Marker :=
  match cb with
  | RequirementCallback p address siteCode =>
      requirementMarker p onMap (location r) address siteCode
  | ListingCallback p address imageUrl url propertyType requirementName
                    distance driveTime =>
      listingMarker p onMap (location r) address imageUrl url propertyType
        requirementName distance driveTime
  end.

Definition circlesFor (cb : Callback) (onMap : bool) (r : GeocoderResult)
  : list Circle :=
  match cb with
  | RequirementCallback p _ _ => [requirementCircle p onMap (location r)]
  | ListingCallback _ _ _ _ _ _ _ _ => []
  end.

(** The locals of the callback's pass after the callback ran. *)
Definition passesAfter (cb : Callback) (o : Thrown (option GeocoderResult))
    (ps : list PassEnv) : list PassEnv :=
  match o with
  | Throw _ => ps
  | Ret None => alter tick (callbackPass cb) ps
  | Ret (Some r) =>
      alter tick (callbackPass cb)
        (alter (extend (location r)) (callbackPass cb) ps)
  end.

(** ** The invariant of reachable worlds *)

Record Inv (w : World) : Prop := {
  inv_inflight :
    ∀ cb, cb ∈ inflight w → callbackPass cb < length (passes w);
  inv_count :
    ∀ p env, passes w !! p = Some env →
      markerCount env + inflightOf p w ≤ totalRecords env;
  inv_fit :
    ∀ p env, passes w !! p = Some env →
      fitCount p w = if fitDecision env then 1 else 0;
  inv_fit_none : ∀ p, length (passes w) ≤ p → fitCount p w = 0;
  inv_map : passes w ≠ [] → mapInstance w = true;
  inv_markers :
    ∀ h m, markerHeap w !! h = Some m → markerOnMap m = true →
      h ∈ markersRef w;
  inv_circles :
    ∀ h c, circleHeap w !! h = Some c → circleOnMap c = true →
      h ∈ circlesRef w;
  inv_marker_pass :
    ∀ m, m ∈ markerHeap w → markerPass m < length (passes w);
  inv_circle_pass :
    ∀ c, c ∈ circleHeap w → circlePass c < length (passes w);
}.

(** The locals of one pass after one of its callbacks ran. *)
Definition envAfter (o : Thrown (option GeocoderResult)) (env : PassEnv)
  : PassEnv :=
  match o with
  | Throw _ => env
  | Ret None => tick env
  | Ret (Some r) => tick (extend (location r) env)
  end.

(** The number of positions the bounds region of pass [p] holds. *)
Definition boundsLength (p : nat) (w : World) : nat :=
  match passes w !! p with
  | Some env => length (bounds env)
  | None => 0
  end.

(** Markers and circles together. *)
Definition overlaysBy (p : nat) (w : World) : nat :=
  markersBy p w + circlesBy p w.

(** ** Records with a non-empty address field *)

Fixpoint countIf {A} (f : A → bool) (l : list A) : nat :=
  match l with
  | [] => 0
  | x :: rest => (if f x then 1 else 0) + countIf f rest
  end.

Definition requirementHasAddress (props : CustomProperties)
    (record : AirtableRecord) : bool :=
  match readCell (requirementAddressField props) record with
  | Ret v => truthy v
  | Throw _ => false
  end.

Definition listingHasAddress (props : CustomProperties)
    (record : AirtableRecord) : bool :=
  match readCellAsString (listingAddressField props) record with
  | Ret v => truthy v
  | Throw _ => false
  end.

Definition addressedCount (inp : Inputs) : nat :=
  countIf (requirementHasAddress (customPropertyValueByKey inp))
    (default [] (requirementRecords inp))
  + countIf (listingHasAddress (customPropertyValueByKey inp))
      (default [] (listingRecords inp)).

(** ** Sample data *)

Module Demo.

Definition keys : CustomProperties :=
  {| requirementAddressField := Some {| id := "fldAddress" |};
     listingAddressField := Some {| id := "fldListingAddress" |};
     listingUrlField := None; listingDistanceField := None;
     listingDriveTimeField := None; listingRequirementsField := None;
     listingImageUrlField := None; listingPropertyTypeField := None |}.

(** A requirement whose address cell holds [cell]. *)
Definition requirement (site : string) (cell : Value) : AirtableRecord :=
  {| name := site;
     getCellValue := λ f, if String.eqb f "fldAddress" then Ret cell
                          else Throw "unknown field";
     getCellValueAsString := λ _, Ret "" |}.

(** A listing whose address cell reads as [address]. *)
Definition listing (address : string) : AirtableRecord :=
  {| name := "";
     getCellValue := λ _, Ret Null;
     getCellValueAsString := λ f, if String.eqb f "fldListingAddress"
                                  then Ret address else Ret "" |}.

(** A record whose cells cannot be read any more. *)
Definition deleted : AirtableRecord :=
  {| name := "gone";
     getCellValue := λ _, Throw "record deleted";
     getCellValueAsString := λ _, Throw "record deleted" |}.

Definition inputs (requirements listings : list AirtableRecord) : Inputs :=
  {| mapsLoaded := true; mapContainer := true;
     requirementsTable := Some {| tableId := "tblRequirements" |};
     listingsTable := Some {| tableId := "tblListings" |};
     requirementRecords := Some requirements;
     listingRecords := Some listings;
     customPropertyValueByKey := keys |}.

Definition position (a b : Z) : LatLng :=
  {| lat := inject_Z a; lng := inject_Z b |}.

Definition found (a b : Z) : option (list GeocoderResult) :=
  Some [{| location := position a b |}].

(** Two requirements that resolve and one listing without an address. *)
Definition twoAndOne : Inputs :=
  inputs [requirement "R1" (Str "A"); requirement "R2" (Str "B")]
         [listing ""].

Definition twoAndOneRun : list Event :=
  [EffectRuns twoAndOne;
   GeocoderAnswers 1 (found 3 4) "OK";
   GeocoderAnswers 0 (found 1 2) "OK"].

(** One requirement that resolves. *)
Definition oneRequirement : Inputs :=
  inputs [requirement "R1" (Str "A")] [].

End Demo.

(** ** Either kind of record *)

Definition isRequirementMarker (m : Marker) : bool :=
  match markerContent m with
  | RequirementContent _ _ => true
  | ListingContent _ _ _ _ _ _ _ => false
  end.

Inductive RecordKind := RequirementKind | ListingKind.

(** The reads of the [try] block of a record of the given kind threw. *)
Definition readThrows (kind : RecordKind) (props : CustomProperties)
    (record : AirtableRecord) (err : string) : Prop :=
  match kind with
  | RequirementKind => readRequirement props record = Throw err
  | ListingKind => readListing props record = Throw err
  end.

Definition processRecord (kind : RecordKind) (props : CustomProperties)
    (p index : nat) (record : AirtableRecord) (w : World) : World :=
  match kind with
  | RequirementKind => processRequirement props p index record w
  | ListingKind => processListing props p record w
  end.

Definition forEachRecord (kind : RecordKind) (props : CustomProperties)
    (p index : nat) (records : list AirtableRecord) (w : World) : World :=
  match kind with
  | RequirementKind => forEachRequirement props p index records w
  | ListingKind => forEachListing props p records w
  end.

Definition errorProcessing (kind : RecordKind) (err : string) : Warning :=
  match kind with
  | RequirementKind => ErrorProcessingRequirement err
  | ListingKind => ErrorProcessingListing err
  end.

(** Every circle is the companion of a Requirement marker. *)
Definition CirclesAccompany (w : World) : Prop :=
  ∀ c, c ∈ circleHeap w →
    circleRadius c = requirementRadius
    ∧ ∃ m, m ∈ markerHeap w ∧ isRequirementMarker m = true
           ∧ markerPosition m = circleCenter c
           ∧ markerPass m = circlePass c.

(** ** Settling a pass against a geocoding service *)

(** What is seen of an overlay on the map: everything but its identity. *)
Definition markerView (m : Marker) : LatLng * option Value * Icon * Popup :=
  (markerPosition m, markerTitle m, markerIcon m, markerContent m).

Definition circleView (c : Circle) : LatLng * Q * string :=
  (circleCenter c, circleRadius c, circleFillColor c).

Definition shownMarkers (w : World)
  : list (LatLng * option Value * Icon * Popup) :=
  map markerView (attachedMarkers w).

Definition shownCircles (w : World) : list (LatLng * Q * string) :=
  map circleView (attachedCircles w).

(** A geocoding service that answers an address the same way each time. *)
Definition Geocoder : Type := Value → option (list GeocoderResult) * string.

(** The service answers request [i] of the in-flight list. *)
Definition deliver (geo : Geocoder) (w : World) (i : nat) : World :=
  match inflight w !! i with
  | Some cb => answer i (geo (callbackAddress cb)).1
                 (geo (callbackAddress cb)).2 w
  | None => w
  end.

(** The service answers requests in the given order. *)
Definition settle (geo : Geocoder) (order : list nat) (w : World) : World :=
  foldl (deliver geo) w order.

(** What the callbacks still in flight will show once answered. *)
Fixpoint pendingViews {V} (f : Callback → GeocoderResult → list V)
    (geo : Geocoder) (cbs : list Callback) : list V :=
  match cbs with
  | [] => []
  | cb :: rest =>
      match firstResult (geo (callbackAddress cb)).1
              (geo (callbackAddress cb)).2 with
      | Ret (Some r) => f cb r
      | _ => []
      end ++ pendingViews f geo rest
  end.

Definition markerViewFor (cb : Callback) (r : GeocoderResult)
  : list (LatLng * option Value * Icon * Popup) :=
  [markerView (markerFor cb true r)].

Definition circleViewsFor (cb : Callback) (r : GeocoderResult)
  : list (LatLng * Q * string) :=
  map circleView (circlesFor cb true r).

(** The same closure, captured by another pass. *)
Definition withPass (p : nat) (cb : Callback) : Callback :=
  match cb with
  | RequirementCallback _ address siteCode =>
      RequirementCallback p address siteCode
  | ListingCallback _ address imageUrl url propertyType requirementName
                    distance driveTime =>
      ListingCallback p address imageUrl url propertyType requirementName
        distance driveTime
  end.

Module DemoService.

(** A service that resolves every address to the same place. *)
Definition everywhere : Geocoder := λ _, (Demo.found 1 2, "OK").

End DemoService.

(** * Further definitions *)

(** ** Further observations on runs *)

(** The positions the bounds region of pass [p] was extended with. *)
Definition boundsOf (p : nat) (w : World) : list LatLng :=
  match passes w !! p with
  | Some env => bounds env
  | None => []
  end.

(** The position found by event [e], met in world [w], when it is a
    successful geocode callback among those selected by [sel]. *)
Definition foundAt (sel : Callback → bool) (e : Event) (w : World)
  : list LatLng :=
  match e with
  | EffectRuns _ => []
  | GeocoderAnswers i results status =>
      match inflight w !! i with
      | Some cb =>
          if sel cb then
            match firstResult results status with
            | Ret (Some r) => [location r]
            | _ => []
            end
          else []
      | None => []
      end
  end.

(** The positions found along a run, in the order the answers arrived. *)
Fixpoint found (sel : Callback → bool) (evs : list Event) (w : World)
  : list LatLng :=
  match evs with
  | [] => []
  | e :: rest => foundAt sel e w ++ found sel rest (step e w)
  end.

(** Whether event [e], met in world [w], is a geocode callback among those
    selected by [sel] that throws (status OK with no result list). *)
Definition thrownAt (sel : Callback → bool) (e : Event) (w : World) : nat :=
  match e with
  | EffectRuns _ => 0
  | GeocoderAnswers i results status =>
      match inflight w !! i with
      | Some cb =>
          if sel cb then
            match firstResult results status with
            | Throw _ => 1
            | Ret _ => 0
            end
          else 0
      | None => 0
      end
  end.

Fixpoint thrown (sel : Callback → bool) (evs : list Event) (w : World) : nat :=
  match evs with
  | [] => 0
  | e :: rest => thrownAt sel e w + thrown sel rest (step e w)
  end.

(** The records of pass [p] that are counted or still awaited. *)
Definition accounted (p : nat) (w : World) : nat :=
  match passes w !! p with
  | Some env => markerCount env + inflightOf p w
  | None => 0
  end.

(** The runs of the effect body that got past its guard. *)
Definition readyRuns (evs : list Event) : nat :=
  countIf (λ e, match e with
                | EffectRuns inp => ready inp
                | GeocoderAnswers _ _ _ => false
                end) evs.

(** Every [fitBounds] call was made by a complete pass, with its bounds. *)
Definition FitCallsFaithful (w : World) : Prop :=
  ∀ p b, (p, b) ∈ fitBoundsCalls w →
    ∃ env, passes w !! p = Some env ∧ bounds env = b
           ∧ markerCount env = totalRecords env ∧ b ≠ [].

(** The holding lists name exactly the overlays on the map, once each. *)
Definition Held (w : World) : Prop :=
  NoDup (markersRef w) ∧ NoDup (circlesRef w)
  ∧ (∀ h, h ∈ markersRef w
          ↔ ∃ m, markerHeap w !! h = Some m ∧ markerOnMap m = true)
  ∧ (∀ h, h ∈ circlesRef w
          ↔ ∃ c, circleHeap w !! h = Some c ∧ circleOnMap c = true).

(** A string made of white space only. *)
Fixpoint allWhiteSpace (s : string) : bool :=
  match s with
  | EmptyString => true
  | String a s' => isWhiteSpace a && allWhiteSpace s'
  end.

(** The six white-space characters of the ASCII range: tab, line feed,
    vertical tab, form feed, carriage return and space. *)
Definition asciiSpaces : list ascii :=
  ["009"; "010"; "011"; "012"; "013"; " "]%char.

Definition isAsciiSpace (a : ascii) : bool :=
  existsb (Ascii.eqb a) asciiSpaces.

Fixpoint onlyAsciiSpaces (s : string) : bool :=
  match s with
  | EmptyString => true
  | String a s' => isAsciiSpace a && onlyAsciiSpaces s'
  end.

(** An ASCII character that is not white space. *)
Definition isAsciiInk (a : ascii) : bool :=
  Nat.ltb (nat_of_ascii a) 128 && negb (isAsciiSpace a).

(** ** What the component renders *)

Inductive Screen :=
| ConfigurationRequired (missing : list string)
| ErrorMessage (msg : string)
| LoadingMaps
| MapContainer.

(** [if (error)] on the [error] state: [null] or a message. *)
Definition errorSet (error : option string) : bool :=
  match error with
  | Some msg => negb (isEmptyString msg)
  | None => false
  end.

(** The items of the list on the configuration screen, in source order. *)
Definition missingItems (key : string) (requirements listings : option Table)
    (props : CustomProperties) : list string :=
  (if isEmptyString key then ["Google Maps API Key"] else [])
  ++ (if isSome requirements then [] else ["Requirements Table"])
  ++ (if isSome listings then [] else ["Listings Table"])
  ++ (if isSome (requirementAddressField props) then []
      else ["Requirement Address Field"])
  ++ (if isSome (listingAddressField props) then []
      else ["Listing Address Field"]).

(** The return value of [MapInterface], by its four cases. *)
Definition render (key : string) (requirements listings : option Table)
    (props : CustomProperties) (error : option string) (loaded : bool)
  : Screen :=
  if negb (isSome requirements) || negb (isSome listings)
     || negb (isSome (requirementAddressField props))
     || negb (isSome (listingAddressField props))
  then ConfigurationRequired (missingItems key requirements listings props)
  else match error with
       | Some msg =>
           if negb (isEmptyString msg) then ErrorMessage msg
           else if negb loaded then LoadingMaps else MapContainer
       | None => if negb loaded then LoadingMaps else MapContainer
       end.

(** [mapContainerRef.current] after a render: set when the container
    element is what was rendered, [null] otherwise. *)
Definition containerMounted (screen : Screen) : bool :=
  match screen with
  | MapContainer => true
  | _ => false
  end.

(** What the synchronisation effect reads after a render. *)
Definition inputsAfterRender (key : string)
    (requirements listings : option Table) (props : CustomProperties)
    (error : option string) (loaded : bool)
    (requirementRows listingRows : option (list AirtableRecord)) : Inputs :=
  {| mapsLoaded := loaded;
     mapContainer :=
       containerMounted (render key requirements listings props error loaded);
     requirementsTable := requirements;
     listingsTable := listings;
     requirementRecords := requirementRows;
     listingRecords := listingRows;
     customPropertyValueByKey := props |}.

(** ** Loading the Maps script *)

(** The page as the loading effect sees it: whether [window.google.maps]
    exists, and the script elements the component has in [document.head],
    each with its identity and its [src]. *)
Record Page := {
  googleMaps : bool;
  headScripts : list (nat * string);
  scriptsCreated : nat;
}.

(** The component's state hooks, and the script the last run of the
    loading effect registered for removal, if it registered a cleanup. *)
Record Hooks := {
  hookMapsLoaded : bool;
  hookError : option string;
  hookCleanup : option nat;
}.

Definition mapsUrl (key : string) : string :=
  String.append "https://maps.googleapis.com/maps/api/js?key=" key.

(** The cleanup the loading effect returns: the script is removed from its
    parent if it has one. *)
Definition runCleanup (pg : Page) (h : Hooks) : Page :=
  match hookCleanup h with
  | Some script =>
      {| googleMaps := googleMaps pg;
         headScripts := filter (λ s, s.1 ≠ script) (headScripts pg);
         scriptsCreated := scriptsCreated pg |}
  | None => pg
  end.

(** The body of the loading effect, run with the key of the current
    render. *)
Definition loadBody (key : string) (pg : Page) (h : Hooks) : Page * Hooks :=
  if googleMaps pg then
    (pg, {| hookMapsLoaded := true; hookError := hookError h;
            hookCleanup := None |})
  else if isEmptyString key then
    (pg, {| hookMapsLoaded := hookMapsLoaded h;
            hookError := Some "Google Maps API key not found. Please set VESPER_GOOGLE_API in custom properties.";
            hookCleanup := None |})
  else
    ({| googleMaps := googleMaps pg;
        headScripts := headScripts pg ++ [(scriptsCreated pg, mapsUrl key)];
        scriptsCreated := S (scriptsCreated pg) |},
     {| hookMapsLoaded := hookMapsLoaded h; hookError := hookError h;
        hookCleanup := Some (scriptsCreated pg) |}).

Inductive LoaderEvent :=
| KeyEffectRuns (key : string)      (* mount, or the key changed *)
| ScriptLoaded (script : nat)       (* the script's onload fires *)
| ScriptFailed (script : nat)       (* the script's onerror fires *)
| MapsDefined.                      (* some script defines window.google.maps *)

(** One step of the loader.  A run of the effect is preceded by the
    cleanup of the run before it.  The handlers of a script stay
    registered on the element whether or not it is still in the head.
    [onload] only calls [setMapsLoaded(true)]: whether
    [window.google.maps] exists is up to the page, which may define it at
    any time. *)
Definition loaderStep (s : Page * Hooks) (e : LoaderEvent) : Page * Hooks :=
  match e with
  | KeyEffectRuns key => loadBody key (runCleanup s.1 s.2) s.2
  | ScriptLoaded script =>
      if Nat.ltb script (scriptsCreated s.1) then
        (s.1,
         {| hookMapsLoaded := true; hookError := hookError s.2;
            hookCleanup := hookCleanup s.2 |})
      else s
  | MapsDefined =>
      ({| googleMaps := true; headScripts := headScripts s.1;
          scriptsCreated := scriptsCreated s.1 |}, s.2)
  | ScriptFailed script =>
      if Nat.ltb script (scriptsCreated s.1) then
        (s.1, {| hookMapsLoaded := hookMapsLoaded s.2;
                 hookError := Some "Failed to load Google Maps API";
                 hookCleanup := hookCleanup s.2 |})
      else s
  end.

Definition loaderRun (evs : list LoaderEvent) (s : Page * Hooks)
  : Page * Hooks :=
  foldl loaderStep s evs.

(** The component at mount, on a page where Maps may already be there. *)
Definition mounted (alreadyLoaded : bool) : Page * Hooks :=
  ({| googleMaps := alreadyLoaded; headScripts := []; scriptsCreated := 0 |},
   {| hookMapsLoaded := false; hookError := None; hookCleanup := None |}).

(** The key of the last run of the loading effect. *)
Fixpoint lastKey (evs : list LoaderEvent) (key : option string)
  : option string :=
  match evs with
  | [] => key
  | KeyEffectRuns k :: rest => lastKey rest (Some k)
  | _ :: rest => lastKey rest key
  end.

(** ** The custom properties of the extension *)

Module Config.

Inductive FieldType :=
| SINGLE_LINE_TEXT | MULTILINE_TEXT | URL | NUMBER | CURRENCY | DURATION
| MULTIPLE_RECORD_LINKS | SINGLE_SELECT | OTHER_FIELD_TYPE.

Record BaseField := { fieldName : string; fieldType : FieldType }.

Record BaseTable := { tableName : string; tableFields : list BaseField }.

(** [base.tables]. *)
Abbreviation Base := (list BaseTable).

Definition getTableByNameIfExists (base : Base) (n : string)
  : option BaseTable :=
  List.find (λ t, String.eqb (tableName t) n) base.

Definition getFieldByNameIfExists (t : BaseTable) (n : string)
  : option BaseField :=
  List.find (λ f, String.eqb (fieldName f) n) (tableFields t).

(** [a || b] on values that are objects or [undefined]. *)
Definition orElse {A} (a b : option A) : option A :=
  match a with
  | Some x => Some x
  | None => b
  end.

Inductive PropertyKind :=
| StringProperty (defaultValue : string)
| TableProperty (defaultValue : option BaseTable)
| FieldProperty (table : BaseTable) (shouldFieldBeAllowed : FieldType → bool)
                (defaultValue : option BaseField).

Record Property := {
  key : string;
  label : string;
  kind : PropertyKind;
}.

Definition isText (t : FieldType) : bool :=
  match t with SINGLE_LINE_TEXT | MULTILINE_TEXT => true | _ => false end.

Definition isUrlOrText (t : FieldType) : bool :=
  match t with URL | SINGLE_LINE_TEXT => true | _ => false end.

Definition isNumberOrCurrency (t : FieldType) : bool :=
  match t with NUMBER | CURRENCY => true | _ => false end.

Definition isNumberOrDuration (t : FieldType) : bool :=
  match t with NUMBER | DURATION => true | _ => false end.

Definition isRecordLinks (t : FieldType) : bool :=
  match t with MULTIPLE_RECORD_LINKS => true | _ => false end.

Definition isSelectOrText (t : FieldType) : bool :=
  match t with SINGLE_SELECT | SINGLE_LINE_TEXT => true | _ => false end.

(** [getCustomProperties(base)].  The tables the field properties are
    bound to are looked up first; reading a field of a table that is
    [undefined] throws, which aborts the whole array literal. *)
Definition getCustomProperties (base : Base) : Thrown (list Property) :=
  let foundRequirementsTable := getTableByNameIfExists base "Requirements" in
  let foundListingsTable := getTableByNameIfExists base "Listings" in
  let reqTable := orElse foundRequirementsTable (base !! 0) in
  let listTable := orElse (orElse foundListingsTable (base !! 1)) (base !! 0) in
  match reqTable, listTable with
  | Some reqTable, Some listTable =>
      Ret
        [ {| key := "VESPER_GOOGLE_API"; label := "Google Maps API Key";
             kind := StringProperty "" |};
          {| key := "requirementsTable"; label := "Requirements Table";
             kind := TableProperty (orElse foundRequirementsTable (base !! 0)) |};
          {| key := "listingsTable"; label := "Listings Table";
             kind := TableProperty
                       (orElse (orElse foundListingsTable (base !! 1))
                          (base !! 0)) |};
          {| key := "requirementAddressField";
             label := "Requirement Address Field";
             kind := FieldProperty reqTable isText
                       (getFieldByNameIfExists reqTable "Address") |};
          {| key := "listingAddressField"; label := "Listing Address Field";
             kind := FieldProperty listTable isText
                       (getFieldByNameIfExists listTable "Listing Address") |};
          {| key := "listingUrlField"; label := "Listing URL Field";
             kind := FieldProperty listTable isUrlOrText
                       (getFieldByNameIfExists listTable "Listing URL") |};
          {| key := "listingDistanceField"; label := "Listing Distance Field";
             kind := FieldProperty listTable isNumberOrCurrency
                       (getFieldByNameIfExists listTable
                          "Drive Distance (mi)") |};
          {| key := "listingDriveTimeField";
             label := "Listing Drive Time Field";
             kind := FieldProperty listTable isNumberOrDuration
                       (getFieldByNameIfExists listTable "Drive Time (min)") |};
          {| key := "listingRequirementsField";
             label := "Listing Requirements Link Field";
             kind := FieldProperty listTable isRecordLinks
                       (getFieldByNameIfExists listTable "Requirements") |};
          {| key := "listingImageUrlField"; label := "Listing Image URL Field";
             kind := FieldProperty listTable isUrlOrText
                       (getFieldByNameIfExists listTable
                          "Listing Image URL") |};
          {| key := "listingPropertyTypeField"; label := "Property Type Field";
             kind := FieldProperty listTable isSelectOrText
                       (orElse
                          (orElse
                             (getFieldByNameIfExists listTable "Property Type")
                             (getFieldByNameIfExists listTable "Listing Type"))
                          (getFieldByNameIfExists listTable "Type")) |} ]
  | _, _ => Throw "TypeError"
  end.

(** The table a property is bound to, when it is a field property. *)
Definition boundTable (p : Property) : option BaseTable :=
  match kind p with
  | FieldProperty t _ _ => Some t
  | _ => None
  end.

Definition defaultField (p : Property) : option BaseField :=
  match kind p with
  | FieldProperty _ _ d => d
  | _ => None
  end.

Definition defaultTable (p : Property) : option BaseTable :=
  match kind p with
  | TableProperty d => d
  | _ => None
  end.

(** A base with the two tables and the fields the defaults look for. *)
Definition demoAddress : BaseField :=
  {| fieldName := "Address"; fieldType := SINGLE_LINE_TEXT |}.

Definition demoRequirements : BaseTable :=
  {| tableName := "Requirements"; tableFields := [demoAddress] |}.

Definition demoListings : BaseTable :=
  {| tableName := "Listings";
     tableFields := [{| fieldName := "Listing Address";
                        fieldType := SINGLE_LINE_TEXT |};
                     {| fieldName := "Type"; fieldType := SINGLE_SELECT |}] |}.

Definition demoBase : Base := [demoRequirements; demoListings].

End Config.

(** ** The badge of a property type *)

Definition toLowerAscii (a : ascii) : ascii :=
  let n := nat_of_ascii a in
  if Nat.leb 65 n && Nat.leb n 90 then ascii_of_nat (n + 32) else a.

(** [s.toLowerCase()], on the ASCII range. *)
Fixpoint toLowerCase (s : string) : string :=
  match s with
  | EmptyString => EmptyString
  | String a s' => String (toLowerAscii a) (toLowerCase s')
  end.

(** [hay.includes(needle)]. *)
Fixpoint includes (needle hay : string) : bool :=
  String.prefix needle hay
  || match hay with
     | EmptyString => false
     | String _ hay' => includes needle hay'
     end.

Record Badge := {
  badgeBackground : string;
  badgeColor : string;
  badgeBorder : string;
}.

(** The three nested conditionals of the property-type badge. *)
Definition propertyTypeBadge (propertyType : string) : Badge :=
  {| badgeBackground :=
       if includes "parking" (toLowerCase propertyType) then "#fff3cd"
       else if includes "land" (toLowerCase propertyType) then "#d1ecf1"
       else "#d4edda";
     badgeColor :=
       if includes "parking" (toLowerCase propertyType) then "#856404"
       else if includes "land" (toLowerCase propertyType) then "#0c5460"
       else "#155724";
     badgeBorder :=
       if includes "parking" (toLowerCase propertyType) then "#ffeaa7"
       else if includes "land" (toLowerCase propertyType) then "#bee5eb"
       else "#c3e6cb" |}.

Definition yellowBadge : Badge :=
  {| badgeBackground := "#fff3cd"; badgeColor := "#856404";
     badgeBorder := "#ffeaa7" |}.

Definition blueBadge : Badge :=
  {| badgeBackground := "#d1ecf1"; badgeColor := "#0c5460";
     badgeBorder := "#bee5eb" |}.

Definition greenBadge : Badge :=
  {| badgeBackground := "#d4edda"; badgeColor := "#155724";
     badgeBorder := "#c3e6cb" |}.

(** A string of ASCII characters. *)
Fixpoint isAsciiString (s : string) : bool :=
  match s with
  | EmptyString => true
  | String a s' => Nat.ltb (nat_of_ascii a) 128 && isAsciiString s'
  end.

(** [d] is the letter [c], or its capital when [c] is one of a to z. *)
Definition sameLetter (c d : ascii) : bool :=
  Ascii.eqb d c
  || (Nat.leb 97 (nat_of_ascii c) && Nat.leb (nat_of_ascii c) 122
      && Nat.eqb (nat_of_ascii d + 32) (nat_of_ascii c)).

(** [word] spells [lower] letter by letter, each letter small or capital. *)
Fixpoint spells (lower word : string) : bool :=
  match lower, word with
  | EmptyString, EmptyString => true
  | String c lower', String d word' => sameLetter c d && spells lower' word'
  | _, _ => false
  end.

(** [s] contains [lower] somewhere, in any mix of small and capital
    letters. *)
Definition containsWord (lower s : string) : Prop :=
  ∃ before word after,
    s = before +:+ word +:+ after ∧ spells lower word = true.
(** * Properties *)

(** ** Unfolding the operations *)

Lemma World_eta (w : World) :
  w = {| mapInstance := mapInstance w; markerHeap := markerHeap w;
         circleHeap := circleHeap w; markersRef := markersRef w;
         circlesRef := circlesRef w; passes := passes w;
         inflight := inflight w; fitBoundsCalls := fitBoundsCalls w;
         console := console w; uncaught := uncaught w |}.
Proof. by destruct w. Qed.

Lemma insert_as_alter {A} (f : A → A) (l : list A) (i : nat) (x : A) :
  l !! i = Some x → <[i := f x]> l = alter f i l.
Proof.
  revert i. induction l as [|y l IH]; intros [|i] Hx; simplify_eq/=; auto.
  by rewrite IH.
Qed.

Lemma alter_out_of_range {A} (f : A → A) (l : list A) (i : nat) :
  l !! i = None → alter f i l = l.
Proof.
  revert i. induction l as [|y l IH]; intros [|i] Hx; simplify_eq/=; auto.
  by rewrite IH.
Qed.

Lemma checkAndFitBounds_unfold (p : nat) (w : World) :
  checkAndFitBounds p w =
  setFitBoundsCalls
    (fitBoundsCalls w ++ fitNow p (alter tick p (passes w)))
    (setPasses (alter tick p (passes w)) w).
Proof.
  unfold checkAndFitBounds, fitNow.
  destruct (passes w !! p) as [env|] eqn:Hp.
  - rewrite list_lookup_alter_eq, Hp.
    change (tick <$> Some env) with (Some (tick env)). cbv zeta.
    rewrite (insert_as_alter tick _ _ _ Hp). fold (fitDecision (tick env)).
    destruct (fitDecision (tick env)).
    + reflexivity.
    + unfold setFitBoundsCalls; cbn. by rewrite app_nil_r.
  - rewrite list_lookup_alter_eq, Hp. cbn.
    rewrite (alter_out_of_range _ _ _ Hp).
    unfold setFitBoundsCalls, setPasses; simpl. rewrite app_nil_r.
    by destruct w.
Qed.

Lemma processRequirement_outcome props p index record w :
  processRequirement props p index record w
  = applyOutcome p w (requirementOutcome props p index record).
Proof.
  unfold processRequirement, requirementOutcome.
  destruct (readRequirement props record) as [address|err]; [|done].
  by destruct (truthy address).
Qed.

Lemma processListing_outcome props p record w :
  processListing props p record w
  = applyOutcome p w (listingOutcome props p record).
Proof.
  unfold processListing, listingOutcome.
  destruct (readListing props record) as [lf|err]; [|done].
  by destruct (truthy (lfAddress lf)).
Qed.

Lemma forEachRequirement_outcomes props p index records w :
  forEachRequirement props p index records w
  = foldl (applyOutcome p) w (requirementOutcomes props p index records).
Proof.
  revert index w. induction records as [|r rs IH]; intros index w; [done|].
  simpl. by rewrite IH, processRequirement_outcome.
Qed.

Lemma forEachListing_outcomes props p records w :
  forEachListing props p records w
  = foldl (applyOutcome p) w (listingOutcomes props p records).
Proof.
  revert w. induction records as [|r rs IH]; intros w; [done|].
  simpl. by rewrite IH, processListing_outcome.
Qed.

Lemma requirementOutcomes_length props p index records :
  length (requirementOutcomes props p index records) = length records.
Proof.
  revert index. induction records as [|r rs IH]; intros index; simpl; auto.
Qed.

Lemma outcomes_length inp p :
  length (outcomes inp p)
  = recordCount (requirementRecords inp) + recordCount (listingRecords inp).
Proof.
  unfold outcomes, listingOutcomes.
  rewrite length_app, requirementOutcomes_length, length_map.
  by destruct (requirementRecords inp), (listingRecords inp).
Qed.

Lemma skipped_requests_length os :
  skippedCount os + length (requestsOf os) = length os.
Proof.
  induction os as [|[cb|msg] os IH]; simpl; lia.
Qed.

(** While a pass has an empty bounds region its synchronous part only
    counts: requests are queued, warnings logged, and nothing else moves. *)
Lemma foldl_applyOutcome (ps : list PassEnv) env os w :
  passes w = ps ++ [env] → bounds env = [] →
  foldl (applyOutcome (length ps)) w os =
  {| mapInstance := mapInstance w; markerHeap := markerHeap w;
     circleHeap := circleHeap w; markersRef := markersRef w;
     circlesRef := circlesRef w;
     passes := ps ++ [{| bounds := [];
                         markerCount := markerCount env + skippedCount os;
                         totalRecords := totalRecords env |}];
     inflight := inflight w ++ requestsOf os;
     fitBoundsCalls := fitBoundsCalls w;
     console := console w ++ warningsOf os;
     uncaught := uncaught w |}.
Proof.
  revert env w. induction os as [|o os IH]; intros env w Hps Hb.
  - simpl. rewrite !app_nil_r, Nat.add_0_r.
    rewrite (World_eta w) at 1. f_equal. rewrite Hps. f_equal.
    destruct env; simpl in *. by subst.
  - assert (Htick : ∀ w', passes w' = ps ++ [env] →
              checkAndFitBounds (length ps) w'
              = setPasses (ps ++ [tick env]) w').
    { intros w' Hw'. rewrite checkAndFitBounds_unfold, Hw'.
      assert (Ha : alter tick (length ps) (ps ++ [env]) = ps ++ [tick env]).
      { rewrite alter_app_r_alt by lia. by rewrite Nat.sub_diag. }
      rewrite Ha. unfold fitNow.
      rewrite lookup_app_r, Nat.sub_diag by lia. simpl.
      unfold fitDecision. simpl. rewrite Hb. simpl.
      rewrite andb_false_r. unfold setFitBoundsCalls, setPasses. simpl.
      by rewrite app_nil_r. }
    simpl. destruct o as [cb|[msg|]]; simpl.
    + rewrite (IH env) by done. simpl. by rewrite <- app_assoc.
    + rewrite Htick by done.
      rewrite (IH (tick env)) by done. simpl.
      rewrite <- app_assoc. simpl. do 3 f_equal. f_equal. lia.
    + rewrite Htick by done.
      rewrite (IH (tick env)) by done. simpl.
      do 3 f_equal. f_equal. lia.
Qed.

Lemma syncEffect_not_ready inp w : ready inp = false → syncEffect inp w = w.
Proof. intros H. unfold syncEffect. by rewrite H. Qed.

(** The world after one run of the effect body, in closed form. *)
Lemma syncEffect_ready inp w :
  ready inp = true →
  syncEffect inp w =
  {| mapInstance := true;
     markerHeap := detachMarkers (markersRef w) (markerHeap w);
     circleHeap := detachCircles (circlesRef w) (circleHeap w);
     markersRef := []; circlesRef := [];
     passes := passes w ++
       [{| bounds := [];
           markerCount := skippedCount (outcomes inp (length (passes w)));
           totalRecords := recordCount (requirementRecords inp)
                           + recordCount (listingRecords inp) |}];
     inflight := inflight w ++ requestsOf (outcomes inp (length (passes w)));
     fitBoundsCalls := fitBoundsCalls w;
     console := console w ++ warningsOf (outcomes inp (length (passes w)));
     uncaught := uncaught w |}.
Proof.
  intros Hready. unfold syncEffect. rewrite Hready. cbn [negb]. cbv zeta.
  unfold ready in Hready.
  destruct (requirementsTable inp) as [rt|]; [|by rewrite !andb_false_r in Hready].
  destruct (listingsTable inp) as [lt|]; [|by rewrite !andb_false_r in Hready].
  set (w1 := if mapInstance w then w else setMapInstance true w).
  assert (H1 : mapInstance w1 = true ∧ markerHeap w1 = markerHeap w
               ∧ circleHeap w1 = circleHeap w ∧ markersRef w1 = markersRef w
               ∧ circlesRef w1 = circlesRef w ∧ passes w1 = passes w
               ∧ inflight w1 = inflight w
               ∧ fitBoundsCalls w1 = fitBoundsCalls w
               ∧ console w1 = console w ∧ uncaught w1 = uncaught w).
  { subst w1. destruct (mapInstance w) eqn:Hm; simpl; auto 20. }
  destruct H1 as (Hm & Hmh & Hch & Hmr & Hcr & Hps & Hin & Hfit & Hco & Hun).
  set (p := length (passes (clearOverlays w1))).
  assert (Hp : p = length (passes w)) by (subst p; simpl; by rewrite Hps).
  set (w3 := setPasses (passes (clearOverlays w1) ++ [newPass inp])
               (clearOverlays w1)).
  set (props := customPropertyValueByKey inp).
  assert (Hfold :
    match listingRecords inp with
    | Some records =>
        forEachListing props p records
          match requirementRecords inp with
          | Some records0 => forEachRequirement props p 0 records0 w3
          | None => w3
          end
    | None =>
        match requirementRecords inp with
        | Some records0 => forEachRequirement props p 0 records0 w3
        | None => w3
        end
    end = foldl (applyOutcome p) w3 (outcomes inp p)).
  { unfold outcomes. rewrite foldl_app. fold props.
    destruct (requirementRecords inp) as [rs|], (listingRecords inp) as [ls|];
      simpl; rewrite ?forEachListing_outcomes, ?forEachRequirement_outcomes;
      reflexivity. }
  transitivity (foldl (applyOutcome p) w3 (outcomes inp p)).
  { rewrite <- Hfold.
    destruct (requirementRecords inp), (listingRecords inp); reflexivity. }
  rewrite Hp.
  rewrite (foldl_applyOutcome (passes w) (newPass inp));
    [| subst w3; simpl; by rewrite Hps | done].
  subst w3. simpl. rewrite Hm, Hmh, Hch, Hmr, Hcr, Hin, Hfit, Hco, Hun.
  reflexivity.
Qed.

(** *** The geocoder's answer, field by field *)

Ltac answer_cases H :=
  unfold answer, runCallback; rewrite H; cbv zeta;
  match goal with
  | |- context [firstResult ?rs ?st] =>
      destruct (firstResult rs st) as [[?|]|?]
  end;
  match goal with c : Callback |- _ => destruct c end;
  cbn; rewrite ?checkAndFitBounds_unfold, ?app_nil_r; reflexivity.

Section Answer.
Context (w : World) (i : nat) (cb : Callback).
Context (results : option (list GeocoderResult)) (status : string).
Hypothesis Hcb : inflight w !! i = Some cb.

Lemma answer_inflight :
  inflight (answer i results status w) = delete i (inflight w).
Proof.
  answer_cases Hcb.
Qed.

Lemma answer_passes :
  passes (answer i results status w)
  = passesAfter cb (firstResult results status) (passes w).
Proof.
  answer_cases Hcb.
Qed.

Lemma answer_fitBoundsCalls :
  fitBoundsCalls (answer i results status w)
  = fitBoundsCalls w ++
    match firstResult results status with
    | Throw _ => []
    | o => fitNow (callbackPass cb) (passesAfter cb o (passes w))
    end.
Proof.
  answer_cases Hcb.
Qed.

Lemma answer_markerHeap :
  markerHeap (answer i results status w)
  = markerHeap w ++
    match firstResult results status with
    | Ret (Some r) => [markerFor cb (mapInstance w) r]
    | _ => []
    end.
Proof.
  answer_cases Hcb.
Qed.

Lemma answer_circleHeap :
  circleHeap (answer i results status w)
  = circleHeap w ++
    match firstResult results status with
    | Ret (Some r) => circlesFor cb (mapInstance w) r
    | _ => []
    end.
Proof.
  answer_cases Hcb.
Qed.

Lemma answer_markersRef :
  markersRef (answer i results status w)
  = markersRef w ++
    match firstResult results status with
    | Ret (Some r) => [length (markerHeap w)]
    | _ => []
    end.
Proof.
  answer_cases Hcb.
Qed.

Lemma answer_circlesRef :
  circlesRef (answer i results status w)
  = circlesRef w ++
    match firstResult results status with
    | Ret (Some r) => if isRequirementCallback cb
                      then [length (circleHeap w)] else []
    | _ => []
    end.
Proof.
  answer_cases Hcb.
Qed.

Lemma answer_console :
  console (answer i results status w)
  = console w ++
    match firstResult results status with
    | Ret None => [GeocodingFailedFor (callbackAddress cb) status]
    | _ => []
    end.
Proof.
  answer_cases Hcb.
Qed.

Lemma answer_uncaught :
  uncaught (answer i results status w)
  = uncaught w ++
    match firstResult results status with
    | Throw err => [err]
    | _ => []
    end.
Proof.
  answer_cases Hcb.
Qed.

Lemma answer_mapInstance :
  mapInstance (answer i results status w) = mapInstance w.
Proof.
  answer_cases Hcb.
Qed.
End Answer.

Lemma answer_none w i results status :
  inflight w !! i = None → answer i results status w = w.
Proof. intros H. unfold answer. by rewrite H. Qed.

(** ** Lists: counting under deletion and pointwise change *)

Lemma filter_length_delete {A} (P : A → Prop) `{!∀ x, Decision (P x)}
    (l : list A) (i : nat) (x : A) :
  l !! i = Some x →
  length (filter P l)
  = (if decide (P x) then 1 else 0) + length (filter P (delete i l)).
Proof.
  intros Hx. rewrite (filter_Permutation _ _ _ (delete_Permutation _ _ _ Hx)).
  rewrite filter_cons. by destruct (decide (P x)).
Qed.

Lemma Forall2_filter_length {A} (P : A → Prop) `{!∀ x, Decision (P x)}
    (R : A → A → Prop) (l l' : list A) :
  Forall2 R l l' → (∀ x y, R x y → (P x ↔ P y)) →
  length (filter P l) = length (filter P l').
Proof.
  intros HF HR. induction HF as [|x y l l' Hxy _ IH]; [done|].
  rewrite !filter_cons.
  destruct (decide (P x)) as [Hx|Hx], (decide (P y)) as [Hy|Hy]; simpl;
    try (by rewrite IH); exfalso; specialize (HR _ _ Hxy); tauto.
Qed.

Lemma filter_length_all_not {A} (P : A → Prop) `{!∀ x, Decision (P x)}
    (l : list A) :
  (∀ x, x ∈ l → ¬ P x) → length (filter P l) = 0.
Proof.
  intros Hall. induction l as [|x l IH]; [done|].
  rewrite filter_cons, decide_False by (apply Hall; left).
  apply IH. intros y Hy. apply Hall. by right.
Qed.

Lemma filter_length_all {A} (P : A → Prop) `{!∀ x, Decision (P x)}
    (l : list A) :
  (∀ x, x ∈ l → P x) → length (filter P l) = length l.
Proof.
  intros Hall. induction l as [|x l IH]; [done|].
  rewrite filter_cons, decide_True by (apply Hall; left).
  simpl. rewrite IH; [done|]. intros y Hy. apply Hall. by right.
Qed.

(** [forEach(x => x.setMap(null))] over a list of handles. *)
Section Detach.
Context {A : Type} (d : A → A).
Hypothesis d_idem : ∀ x, d (d x) = d x.

Lemma detachAll_Forall2 handles heap :
  Forall2 (λ x y, y = x ∨ y = d x) heap (detachAll d handles heap).
Proof.
  unfold detachAll. revert heap.
  induction handles as [|h hs IH]; intros heap; simpl.
  - apply Forall2_same_length_lookup_2; [done|].
    intros i x y Hx Hy. left. congruence.
  - specialize (IH (alter d h heap)).
    apply Forall2_same_length_lookup_2.
    + apply Forall2_length in IH. by rewrite length_alter in IH.
    + intros i x y Hx Hy.
      destruct (alter d h heap !! i) as [z|] eqn:Hz.
      * pose proof (Forall2_lookup_lr _ _ _ _ _ _ IH Hz Hy) as Hzy.
        destruct (decide (h = i)) as [->|Hne].
        -- rewrite list_lookup_alter_eq, Hx in Hz. simplify_eq/=.
           destruct Hzy as [->| ->]; [by right|]. right. apply d_idem.
        -- rewrite list_lookup_alter_ne, Hx in Hz by done. simplify_eq.
           exact Hzy.
      * apply lookup_ge_None in Hz. rewrite length_alter in Hz.
        apply lookup_lt_Some in Hx. lia.
Qed.

Lemma detachAll_length handles heap :
  length (detachAll d handles heap) = length heap.
Proof. symmetry. eapply Forall2_length, detachAll_Forall2. Qed.

Lemma detachAll_lookup handles heap h x :
  h ∈ handles → heap !! h = Some x →
  detachAll d handles heap !! h = Some (d x).
Proof.
  unfold detachAll. revert heap x.
  induction handles as [|h' hs IH]; intros heap x Hin Hx.
  - by apply elem_of_nil in Hin.
  - simpl. destruct (decide (h ∈ hs)) as [Hhs|Hhs].
    + destruct (decide (h' = h)) as [->|Hne].
      * rewrite (IH (alter d h heap) (d x)); [by rewrite d_idem|done|].
        by rewrite list_lookup_alter_eq, Hx.
      * apply IH; [done|]. by rewrite list_lookup_alter_ne.
    + apply elem_of_cons in Hin as [->|]; [|done].
      pose proof (detachAll_Forall2 hs (alter d h' heap)) as HF.
      assert (Hz : alter d h' heap !! h' = Some (d x))
        by (by rewrite list_lookup_alter_eq, Hx).
      destruct (Forall2_lookup_l _ _ _ _ _ HF Hz) as (y & Hy & Hor).
      unfold detachAll in Hy. rewrite Hy.
      destruct Hor as [->| ->]; [done|]. by rewrite d_idem.
Qed.
End Detach.

Lemma detachMarker_idem m : detachMarker (detachMarker m) = detachMarker m.
Proof. done. Qed.

Lemma detachCircle_idem c : detachCircle (detachCircle c) = detachCircle c.
Proof. done. Qed.

(** After the clearing step nothing the holding list knew stays attached. *)
Lemma detachMarkers_attached refs heap :
  (∀ h m, heap !! h = Some m → markerOnMap m = true → h ∈ refs) →
  ∀ m, m ∈ detachMarkers refs heap → markerOnMap m = false.
Proof.
  intros Hinv m Hm. apply list_elem_of_lookup in Hm as [h Hh].
  change (detachMarkers refs heap) with (detachAll detachMarker refs heap) in Hh.
  pose proof (detachAll_Forall2 detachMarker detachMarker_idem refs heap) as HF.
  destruct (Forall2_lookup_r _ _ _ _ _ HF Hh) as (m0 & Hm0 & Hor).
  destruct (markerOnMap m0) eqn:Hon.
  - pose proof (detachAll_lookup detachMarker detachMarker_idem refs heap h m0
                  (Hinv _ _ Hm0 Hon) Hm0) as Hd.
    rewrite Hd in Hh. by simplify_eq.
  - destruct Hor as [->| ->]; done.
Qed.

Lemma detachCircles_attached refs heap :
  (∀ h c, heap !! h = Some c → circleOnMap c = true → h ∈ refs) →
  ∀ c, c ∈ detachCircles refs heap → circleOnMap c = false.
Proof.
  intros Hinv c Hc. apply list_elem_of_lookup in Hc as [h Hh].
  change (detachCircles refs heap) with (detachAll detachCircle refs heap) in Hh.
  pose proof (detachAll_Forall2 detachCircle detachCircle_idem refs heap) as HF.
  destruct (Forall2_lookup_r _ _ _ _ _ HF Hh) as (c0 & Hc0 & Hor).
  destruct (circleOnMap c0) eqn:Hon.
  - pose proof (detachAll_lookup detachCircle detachCircle_idem refs heap h c0
                  (Hinv _ _ Hc0 Hon) Hc0) as Hd.
    rewrite Hd in Hh. by simplify_eq.
  - destruct Hor as [->| ->]; done.
Qed.

Lemma detachMarkers_pass refs heap m :
  m ∈ detachMarkers refs heap →
  ∃ m0, m0 ∈ heap ∧ markerPass m = markerPass m0
        ∧ markerPosition m = markerPosition m0
        ∧ markerContent m = markerContent m0.
Proof.
  intros Hm. apply list_elem_of_lookup in Hm as [h Hh].
  change (detachMarkers refs heap) with (detachAll detachMarker refs heap) in Hh.
  pose proof (detachAll_Forall2 detachMarker detachMarker_idem refs heap) as HF.
  destruct (Forall2_lookup_r _ _ _ _ _ HF Hh) as (m0 & Hm0 & Hor).
  exists m0. split; [by eapply list_elem_of_lookup_2|].
  by destruct Hor as [->| ->].
Qed.

Lemma detachCircles_pass refs heap c :
  c ∈ detachCircles refs heap →
  ∃ c0, c0 ∈ heap ∧ circlePass c = circlePass c0
        ∧ circleCenter c = circleCenter c0
        ∧ circleRadius c = circleRadius c0.
Proof.
  intros Hc. apply list_elem_of_lookup in Hc as [h Hh].
  change (detachCircles refs heap) with (detachAll detachCircle refs heap) in Hh.
  pose proof (detachAll_Forall2 detachCircle detachCircle_idem refs heap) as HF.
  destruct (Forall2_lookup_r _ _ _ _ _ HF Hh) as (c0 & Hc0 & Hor).
  exists c0. split; [by eapply list_elem_of_lookup_2|].
  by destruct Hor as [->| ->].
Qed.

Lemma detachMarkers_count p refs heap :
  length (filter (λ m, markerPass m = p) (detachMarkers refs heap))
  = length (filter (λ m, markerPass m = p) heap).
Proof.
  symmetry. eapply Forall2_filter_length.
  - apply (detachAll_Forall2 detachMarker detachMarker_idem refs heap).
  - by intros x y [->| ->].
Qed.

Lemma detachCircles_count p refs heap :
  length (filter (λ c, circlePass c = p) (detachCircles refs heap))
  = length (filter (λ c, circlePass c = p) heap).
Proof.
  symmetry. eapply Forall2_filter_length.
  - apply (detachAll_Forall2 detachCircle detachCircle_idem refs heap).
  - by intros x y [->| ->].
Qed.

(** ** Bookkeeping lemmas *)

Lemma passesAfter_alter cb o ps :
  passesAfter cb o ps = alter (envAfter o) (callbackPass cb) ps.
Proof.
  destruct o as [[r|]|err]; simpl.
  - by rewrite list_alter_alter_eq.
  - done.
  - by rewrite list_alter_id.
Qed.

Lemma envAfter_total o env : totalRecords (envAfter o env) = totalRecords env.
Proof. by destruct o as [[r|]|err]. Qed.

Lemma envAfter_count o env :
  markerCount (envAfter o env)
  = markerCount env + match o with Throw _ => 0 | _ => 1 end.
Proof. destruct o as [[r|]|err]; simpl; lia. Qed.

Lemma envAfter_bounds o env :
  bounds (envAfter o env)
  = bounds env ++ match o with Ret (Some r) => [location r] | _ => [] end.
Proof. destruct o as [[r|]|err]; simpl; by rewrite ?app_nil_r. Qed.

Lemma fitNow_other p q ps :
  p ≠ q → filter (λ c : nat * list LatLng, c.1 = q) (fitNow p ps) = [].
Proof.
  intros Hne. unfold fitNow.
  destruct (ps !! p) as [env|]; [|done].
  destruct (fitDecision env); [|done].
  rewrite filter_cons, decide_False by done. done.
Qed.

Lemma fitNow_same p ps env :
  ps !! p = Some env →
  length (filter (λ c : nat * list LatLng, c.1 = p) (fitNow p ps))
  = if fitDecision env then 1 else 0.
Proof.
  intros Hp. unfold fitNow. rewrite Hp.
  destruct (fitDecision env); [|done].
  rewrite filter_cons, decide_True by done. done.
Qed.

Lemma requirementOutcomes_pass props p index records cb :
  cb ∈ requestsOf (requirementOutcomes props p index records) →
  callbackPass cb = p.
Proof.
  revert index. induction records as [|r rs IH]; intros index; simpl.
  - by intros ?%elem_of_nil.
  - unfold requirementOutcome at 1.
    destruct (readRequirement props r) as [a|e]; [destruct (truthy a)|];
      simpl; eauto.
    intros [->|?]%elem_of_cons; eauto.
Qed.

Lemma listingOutcomes_pass props p records cb :
  cb ∈ requestsOf (listingOutcomes props p records) → callbackPass cb = p.
Proof.
  induction records as [|r rs IH]; simpl.
  - by intros ?%elem_of_nil.
  - unfold listingOutcome at 1.
    destruct (readListing props r) as [lf|e];
      [destruct (truthy (lfAddress lf))|]; simpl; eauto.
    intros [->|?]%elem_of_cons; eauto.
Qed.

Lemma requestsOf_app os1 os2 :
  requestsOf (os1 ++ os2) = requestsOf os1 ++ requestsOf os2.
Proof.
  induction os1 as [|[cb|msg] os1 IH]; simpl; by rewrite ?IH.
Qed.

Lemma outcomes_pass inp p cb :
  cb ∈ requestsOf (outcomes inp p) → callbackPass cb = p.
Proof.
  unfold outcomes. rewrite requestsOf_app.
  intros [H|H]%elem_of_app.
  - by eapply requirementOutcomes_pass.
  - by eapply listingOutcomes_pass.
Qed.

Lemma inflightOf_answer w i cb results status q :
  inflight w !! i = Some cb →
  inflightOf q w
  = (if decide (callbackPass cb = q) then 1 else 0)
    + inflightOf q (answer i results status w).
Proof.
  intros Hcb. unfold inflightOf.
  rewrite (answer_inflight _ _ _ _ _ Hcb).
  by rewrite (filter_length_delete (λ cb, callbackPass cb = q) _ i cb Hcb).
Qed.

Lemma fitCount_answer w i cb results status q :
  inflight w !! i = Some cb →
  fitCount q (answer i results status w)
  = fitCount q w +
    match firstResult results status with
    | Throw _ => 0
    | o => length (filter (λ c : nat * list LatLng, c.1 = q)
                     (fitNow (callbackPass cb) (passesAfter cb o (passes w))))
    end.
Proof.
  intros Hcb. unfold fitCount, fitCallsOf.
  rewrite (answer_fitBoundsCalls _ _ _ _ _ Hcb), list.filter_app, length_app.
  by destruct (firstResult results status) as [[r|]|err].
Qed.

Lemma Inv_initial : Inv initialWorld.
Proof.
  split; simpl; try done.
  - by intros cb ?%elem_of_nil.
  - by intros m ?%elem_of_nil.
  - by intros c ?%elem_of_nil.
Qed.

(** ** The invariant is kept by every step *)

Lemma Inv_answer w i results status :
  Inv w → Inv (answer i results status w).
Proof.
  intros HI. destruct (inflight w !! i) as [cb|] eqn:Hcb;
    [|by rewrite answer_none].
  set (o := firstResult results status).
  set (p := callbackPass cb).
  assert (Hp : p < length (passes w)).
  { apply (inv_inflight _ HI). by eapply list_elem_of_lookup_2. }
  assert (Hps : passes (answer i results status w)
                = alter (envAfter o) p (passes w)).
  { by rewrite (answer_passes _ _ _ _ _ Hcb), passesAfter_alter. }
  assert (Hlen : length (passes (answer i results status w))
                 = length (passes w)).
  { by rewrite Hps, length_alter. }
  split.
  - intros cb' Hin. rewrite Hlen. apply (inv_inflight _ HI).
    rewrite (answer_inflight _ _ _ _ _ Hcb) in Hin.
    by eapply list_elem_of_delete_inv.
  - intros q env' Hq. rewrite Hps in Hq.
    pose proof (inflightOf_answer w i cb results status q Hcb) as Hfl.
    destruct (decide (p = q)) as [<-|Hne].
    + rewrite list_lookup_alter_eq in Hq.
      destruct (passes w !! p) as [env|] eqn:Henv; simplify_eq/=.
      pose proof (inv_count _ HI _ _ Henv) as Hc.
      rewrite envAfter_total, envAfter_count.
      rewrite decide_True in Hfl by done.
      destruct o as [[r|]|err]; lia.
    + rewrite list_lookup_alter_ne in Hq by done.
      pose proof (inv_count _ HI _ _ Hq) as Hc.
      rewrite decide_False in Hfl by done. lia.
  - intros q env' Hq. rewrite Hps in Hq.
    rewrite (fitCount_answer _ _ _ _ _ _ Hcb). fold o. fold p.
    destruct (decide (p = q)) as [<-|Hne].
    + rewrite list_lookup_alter_eq in Hq.
      destruct (passes w !! p) as [env|] eqn:Henv; simplify_eq/=.
      pose proof (inv_count _ HI _ _ Henv) as Hc.
      pose proof (inflightOf_answer w i cb results status p Hcb) as Hfl.
      rewrite decide_True in Hfl by done.
      assert (Hdec : fitDecision env = false).
      { unfold fitDecision.
        destruct (Nat.eqb_spec (markerCount env) (totalRecords env)); [lia|done]. }
      rewrite (inv_fit _ HI _ _ Henv), Hdec.
      assert (Hlk : passesAfter cb o (passes w) !! p = Some (envAfter o env)).
      { rewrite passesAfter_alter. fold p.
        by rewrite list_lookup_alter_eq, Henv. }
      destruct o as [[r|]|err] eqn:Ho.
      * exact (fitNow_same _ _ _ Hlk).
      * exact (fitNow_same _ _ _ Hlk).
      * simpl. by rewrite Hdec.
    + rewrite list_lookup_alter_ne in Hq by done.
      rewrite (inv_fit _ HI _ _ Hq).
      destruct o as [[r|]|err]; rewrite ?fitNow_other by done; simpl; lia.
  - intros q Hq. rewrite Hlen in Hq.
    rewrite (fitCount_answer _ _ _ _ _ _ Hcb). fold o. fold p.
    rewrite (inv_fit_none _ HI _ Hq).
    assert (Hne : p ≠ q) by lia.
    destruct o as [[r|]|err]; rewrite ?fitNow_other by done; done.
  - rewrite (answer_mapInstance _ _ _ _ _ Hcb). intros Hne.
    apply (inv_map _ HI). intros Hnil. rewrite Hnil in Hlen.
    destruct (passes (answer i results status w)); done.
  - intros h m. rewrite (answer_markerHeap _ _ _ _ _ Hcb),
      (answer_markersRef _ _ _ _ _ Hcb). fold o.
    intros Hh Hon. apply lookup_app_Some in Hh as [Hh|[Hge Hh]].
    + apply elem_of_app. left. by eapply (inv_markers _ HI).
    + destruct o as [[r|]|err]; try by destruct (h - length (markerHeap w)).
      apply elem_of_app. right.
      destruct (h - length (markerHeap w)) as [|n] eqn:Hd; [|done].
      assert (h = length (markerHeap w)) as -> by lia. by left.
  - intros h c. rewrite (answer_circleHeap _ _ _ _ _ Hcb),
      (answer_circlesRef _ _ _ _ _ Hcb). fold o.
    intros Hh Hon. apply lookup_app_Some in Hh as [Hh|[Hge Hh]].
    + apply elem_of_app. left. by eapply (inv_circles _ HI).
    + destruct o as [[r|]|err]; try by destruct (h - length (circleHeap w)).
      destruct cb; simpl in *; [|by destruct (h - length (circleHeap w))].
      apply elem_of_app. right.
      destruct (h - length (circleHeap w)) as [|n] eqn:Hd; [|done].
      assert (h = length (circleHeap w)) as -> by lia. by left.
  - intros m. rewrite (answer_markerHeap _ _ _ _ _ Hcb), Hlen. fold o.
    intros [Hm|Hm]%elem_of_app; [by apply (inv_marker_pass _ HI)|].
    destruct o as [[r|]|err]; try by apply elem_of_nil in Hm.
    apply list_elem_of_singleton in Hm as ->. by destruct cb.
  - intros c. rewrite (answer_circleHeap _ _ _ _ _ Hcb), Hlen. fold o.
    intros [Hc|Hc]%elem_of_app; [by apply (inv_circle_pass _ HI)|].
    destruct o as [[r|]|err]; try by apply elem_of_nil in Hc.
    destruct cb; simpl in Hc; [|by apply elem_of_nil in Hc].
    by apply list_elem_of_singleton in Hc as ->.
Qed.

Lemma inflightOf_new_pass w q :
  Inv w → length (passes w) ≤ q → inflightOf q w = 0.
Proof.
  intros HI Hq. unfold inflightOf. apply filter_length_all_not.
  intros cb Hcb Heq. pose proof (inv_inflight _ HI _ Hcb). lia.
Qed.

Lemma Inv_syncEffect inp w : Inv w → Inv (syncEffect inp w).
Proof.
  intros HI. destruct (ready inp) eqn:Hready;
    [|by rewrite syncEffect_not_ready].
  rewrite (syncEffect_ready _ _ Hready).
  set (p := length (passes w)).
  set (os := outcomes inp p).
  split; simpl.
  - intros cb [Hcb|Hcb]%elem_of_app; rewrite length_app; simpl.
    + pose proof (inv_inflight _ HI _ Hcb). lia.
    + apply outcomes_pass in Hcb. subst p. lia.
  - intros q env Hq. unfold inflightOf. simpl.
    rewrite list.filter_app, length_app.
    apply lookup_app_Some in Hq as [Hq|[Hge Hq]].
    + pose proof (inv_count _ HI _ _ Hq) as Hc. unfold inflightOf in Hc.
      rewrite (filter_length_all_not _ (requestsOf os)); [lia|].
      intros cb Hcb%outcomes_pass Heq. apply lookup_lt_Some in Hq.
      subst p. lia.
    + destruct (q - length (passes w)) as [|n] eqn:Hd; [|done].
      assert (q = p) as -> by (subst p; lia). simplify_eq/=.
      pose proof (inflightOf_new_pass w p HI (Nat.le_refl _)) as H0.
      unfold inflightOf in H0. rewrite H0.
      rewrite (filter_length_all _ (requestsOf os));
        [|by intros cb Hcb%outcomes_pass].
      pose proof (skipped_requests_length os) as Hsk.
      pose proof (outcomes_length inp p) as Hlen. fold os in Hlen. lia.
  - intros q env Hq. unfold fitCount, fitCallsOf. simpl.
    apply lookup_app_Some in Hq as [Hq|[Hge Hq]].
    + apply (inv_fit _ HI _ _ Hq).
    + destruct (q - length (passes w)) as [|n] eqn:Hd; [|done].
      simplify_eq/=. unfold fitDecision. simpl. rewrite andb_false_r.
      by apply (inv_fit_none _ HI).
  - intros q. rewrite length_app. simpl. intros Hq.
    apply (inv_fit_none _ HI). lia.
  - done.
  - intros h m Hh Hon.
    pose proof (detachMarkers_attached _ _ (inv_markers _ HI) m
                  (list_elem_of_lookup_2 _ _ _ Hh)). congruence.
  - intros h c Hh Hon.
    pose proof (detachCircles_attached _ _ (inv_circles _ HI) c
                  (list_elem_of_lookup_2 _ _ _ Hh)). congruence.
  - intros m (m0 & Hm0 & Hpass & _)%detachMarkers_pass.
    rewrite length_app, Hpass. simpl.
    pose proof (inv_marker_pass _ HI _ Hm0). lia.
  - intros c (c0 & Hc0 & Hpass & _)%detachCircles_pass.
    rewrite length_app, Hpass. simpl.
    pose proof (inv_circle_pass _ HI _ Hc0). lia.
Qed.

Lemma Inv_step e w : Inv w → Inv (step e w).
Proof.
  destruct e; simpl; [apply Inv_syncEffect | apply Inv_answer].
Qed.

Lemma run_snoc evs e w : run (evs ++ [e]) w = step e (run evs w).
Proof. unfold run. by rewrite foldl_app. Qed.

Lemma run_app evs1 evs2 w : run (evs1 ++ evs2) w = run evs2 (run evs1 w).
Proof. unfold run. by rewrite foldl_app. Qed.

Lemma run_cons e evs w : run (e :: evs) w = run evs (step e w).
Proof. done. Qed.

Lemma Inv_run evs w : Inv w → Inv (run evs w).
Proof.
  revert w. induction evs as [|e evs IH]; intros w HI; [done|].
  rewrite run_cons. by apply IH, Inv_step.
Qed.

Lemma Inv_reachable evs : Inv (run evs initialWorld).
Proof. apply Inv_run, Inv_initial. Qed.

(** ** Counting along a run *)

Lemma successes_app sel evs1 evs2 w :
  successes sel (evs1 ++ evs2) w
  = successes sel evs1 w + successes sel evs2 (run evs1 w).
Proof.
  revert w. induction evs1 as [|e evs1 IH]; intros w; [done|].
  rewrite <- app_comm_cons. cbn [successes]. rewrite IH, run_cons. lia.
Qed.

Lemma markerFor_pass cb onMap r : markerPass (markerFor cb onMap r) = callbackPass cb.
Proof. by destruct cb. Qed.

Lemma markersBy_step p e w :
  markersBy p (step e w) = markersBy p w + successAt (ofPass p) e w.
Proof.
  destruct e as [inp|i results status]; simpl.
  - rewrite Nat.add_0_r. destruct (ready inp) eqn:Hready.
    + rewrite (syncEffect_ready _ _ Hready). unfold markersBy. simpl.
      apply detachMarkers_count.
    + by rewrite syncEffect_not_ready.
  - destruct (inflight w !! i) as [cb|] eqn:Hcb;
      [|by rewrite answer_none, Nat.add_0_r].
    unfold markersBy. rewrite (answer_markerHeap _ _ _ _ _ Hcb).
    rewrite list.filter_app, length_app. f_equal.
    unfold succeeds, ofPass.
    destruct (firstResult results status) as [[r|]|err];
      rewrite ?andb_false_r; try done.
    rewrite filter_cons, markerFor_pass, andb_true_r.
    destruct (Nat.eqb_spec (callbackPass cb) p).
    + by rewrite decide_True.
    + by rewrite decide_False.
Qed.

Lemma circlesBy_step p e w :
  circlesBy p (step e w) = circlesBy p w + successAt (requirementOfPass p) e w.
Proof.
  destruct e as [inp|i results status]; simpl.
  - rewrite Nat.add_0_r. destruct (ready inp) eqn:Hready.
    + rewrite (syncEffect_ready _ _ Hready). unfold circlesBy. simpl.
      apply detachCircles_count.
    + by rewrite syncEffect_not_ready.
  - destruct (inflight w !! i) as [cb|] eqn:Hcb;
      [|by rewrite answer_none, Nat.add_0_r].
    unfold circlesBy. rewrite (answer_circleHeap _ _ _ _ _ Hcb).
    rewrite list.filter_app, length_app. f_equal.
    unfold succeeds, requirementOfPass, ofPass.
    destruct (firstResult results status) as [[r|]|err];
      rewrite ?andb_false_r; try done.
    rewrite andb_true_r. destruct cb as [p' a s|p' a ? ? ? ? ? ?]; simpl.
    + rewrite filter_cons, andb_true_r. simpl.
      destruct (Nat.eqb_spec p' p).
      * by rewrite decide_True.
      * by rewrite decide_False.
    + by rewrite andb_false_r.
Qed.

Lemma markersBy_run p evs w :
  markersBy p (run evs w) = markersBy p w + successes (ofPass p) evs w.
Proof.
  revert w. induction evs as [|e evs IH]; intros w; [simpl; lia|].
  cbn [successes]. rewrite run_cons, IH, markersBy_step. lia.
Qed.

Lemma circlesBy_run p evs w :
  circlesBy p (run evs w)
  = circlesBy p w + successes (requirementOfPass p) evs w.
Proof.
  revert w. induction evs as [|e evs IH]; intros w; [simpl; lia|].
  cbn [successes]. rewrite run_cons, IH, circlesBy_step. lia.
Qed.

Lemma boundsLength_step p e w :
  Inv w →
  boundsLength p (step e w) = boundsLength p w + successAt (ofPass p) e w.
Proof.
  intros HI. destruct e as [inp|i results status]; simpl.
  - rewrite Nat.add_0_r. destruct (ready inp) eqn:Hready;
      [|by rewrite syncEffect_not_ready].
    rewrite (syncEffect_ready _ _ Hready). unfold boundsLength. simpl.
    destruct (decide (p < length (passes w))) as [Hlt|Hge].
    + by rewrite lookup_app_l.
    + rewrite lookup_app_r, (lookup_ge_None_2 (passes w)) by lia.
      by destruct (p - length (passes w)) as [|[|n]].
  - destruct (inflight w !! i) as [cb|] eqn:Hcb;
      [|by rewrite answer_none, Nat.add_0_r].
    unfold boundsLength.
    rewrite (answer_passes _ _ _ _ _ Hcb), passesAfter_alter.
    unfold ofPass, succeeds.
    destruct (Nat.eqb_spec (callbackPass cb) p) as [<-|Hne].
    + rewrite list_lookup_alter_eq.
      destruct (passes w !! callbackPass cb) as [env|] eqn:Henv; simpl.
      * rewrite envAfter_bounds, length_app.
        by destruct (firstResult results status) as [[r|]|err].
      * assert (callbackPass cb < length (passes w)) as Hlt.
        { apply (inv_inflight _ HI). by eapply list_elem_of_lookup_2. }
        apply lookup_ge_None in Henv. lia.
    + rewrite list_lookup_alter_ne by done. simpl. lia.
Qed.

Lemma boundsLength_run p evs w :
  Inv w →
  boundsLength p (run evs w) = boundsLength p w + successes (ofPass p) evs w.
Proof.
  revert w. induction evs as [|e evs IH]; intros w HI; [simpl; lia|].
  cbn [successes]. rewrite run_cons, IH, boundsLength_step by (by try apply Inv_step). lia.
Qed.

Lemma inflightOf_step p e w :
  Inv w → p < length (passes w) →
  inflightOf p (step e w) + successAt (ofPass p) e w ≤ inflightOf p w.
Proof.
  intros HI Hp. destruct e as [inp|i results status]; simpl.
  - rewrite Nat.add_0_r. destruct (ready inp) eqn:Hready;
      [|by rewrite syncEffect_not_ready].
    rewrite (syncEffect_ready _ _ Hready). unfold inflightOf. simpl.
    rewrite list.filter_app, length_app.
    rewrite (filter_length_all_not _ (requestsOf _)); [lia|].
    intros cb Hcb%outcomes_pass. lia.
  - destruct (inflight w !! i) as [cb|] eqn:Hcb;
      [|by rewrite answer_none, Nat.add_0_r].
    rewrite (inflightOf_answer w i cb results status p Hcb).
    unfold ofPass. destruct (Nat.eqb_spec (callbackPass cb) p).
    + rewrite decide_True by done. simpl. destruct (succeeds _ _); lia.
    + simpl. lia.
Qed.

Lemma step_passes_length e w : length (passes w) ≤ length (passes (step e w)).
Proof.
  destruct e as [inp|i results status]; simpl.
  - destruct (ready inp) eqn:Hready; [|by rewrite syncEffect_not_ready].
    rewrite (syncEffect_ready _ _ Hready). simpl. rewrite length_app. lia.
  - destruct (inflight w !! i) as [cb|] eqn:Hcb; [|by rewrite answer_none].
    by rewrite (answer_passes _ _ _ _ _ Hcb), passesAfter_alter, length_alter.
Qed.

Lemma inflightOf_run p evs w :
  Inv w → p < length (passes w) →
  inflightOf p (run evs w) + successes (ofPass p) evs w ≤ inflightOf p w.
Proof.
  revert w. induction evs as [|e evs IH]; intros w HI Hp; [simpl; lia|].
  cbn [successes]. rewrite run_cons.
  pose proof (inflightOf_step p e w HI Hp).
  pose proof (step_passes_length e w).
  specialize (IH (step e w) (Inv_step _ _ HI)). lia.
Qed.

Lemma step_pass_persists p e w env :
  passes w !! p = Some env →
  ∃ env', passes (step e w) !! p = Some env'
          ∧ totalRecords env' = totalRecords env.
Proof.
  intros Hp. destruct e as [inp|i results status]; simpl.
  - destruct (ready inp) eqn:Hready;
      [|rewrite syncEffect_not_ready by done; eauto].
    rewrite (syncEffect_ready _ _ Hready). simpl.
    exists env. split; [|done]. by apply lookup_app_l_Some.
  - destruct (inflight w !! i) as [cb|] eqn:Hcb;
      [|rewrite answer_none by done; eauto].
    rewrite (answer_passes _ _ _ _ _ Hcb), passesAfter_alter.
    destruct (decide (callbackPass cb = p)) as [<-|Hne].
    + rewrite list_lookup_alter_eq, Hp. simpl.
      eexists. split; [done|]. apply envAfter_total.
    + rewrite list_lookup_alter_ne by done. eauto.
Qed.

Lemma run_pass_persists p evs w env :
  passes w !! p = Some env →
  ∃ env', passes (run evs w) !! p = Some env'
          ∧ totalRecords env' = totalRecords env.
Proof.
  revert w env. induction evs as [|e evs IH]; intros w env Hp; [eauto|].
  rewrite run_cons.
  destruct (step_pass_persists p e w env Hp) as (env1 & H1 & Ht1).
  destruct (IH _ _ H1) as (env2 & H2 & Ht2).
  exists env2. split; [done|]. congruence.
Qed.

Lemma successAt_mono (sel sel' : Callback → bool) e w :
  (∀ cb, sel cb = true → sel' cb = true) →
  successAt sel e w ≤ successAt sel' e w.
Proof.
  intros Hsel. destruct e as [inp|i results status]; simpl; [done|].
  destruct (inflight w !! i) as [cb|]; [|done].
  specialize (Hsel cb).
  destruct (sel cb), (sel' cb), (succeeds results status); simpl; try lia;
    by specialize (Hsel eq_refl).
Qed.

Lemma successes_mono (sel sel' : Callback → bool) evs w :
  (∀ cb, sel cb = true → sel' cb = true) →
  successes sel evs w ≤ successes sel' evs w.
Proof.
  intros Hsel. revert w. induction evs as [|e evs IH]; intros w; [done|].
  cbn [successes]. pose proof (successAt_mono sel sel' e w Hsel).
  specialize (IH (step e w)). lia.
Qed.

Lemma markersBy_new_pass w p :
  Inv w → length (passes w) ≤ p → markersBy p w = 0.
Proof.
  intros HI Hp. unfold markersBy. apply filter_length_all_not.
  intros m Hm Heq. pose proof (inv_marker_pass _ HI _ Hm). lia.
Qed.

Lemma circlesBy_new_pass w p :
  Inv w → length (passes w) ≤ p → circlesBy p w = 0.
Proof.
  intros HI Hp. unfold circlesBy. apply filter_length_all_not.
  intros c Hc Heq. pose proof (inv_circle_pass _ HI _ Hc). lia.
Qed.

(** What a fresh pass looks like right after the effect body returned. *)
Lemma syncEffect_new_pass inp w :
  Inv w → ready inp = true →
  let p := length (passes w) in
  let w1 := syncEffect inp w in
  passes w1 !! p
  = Some {| bounds := [];
            markerCount := skippedCount (outcomes inp p);
            totalRecords := recordCount (requirementRecords inp)
                            + recordCount (listingRecords inp) |}
  ∧ inflightOf p w1 = length (requestsOf (outcomes inp p))
  ∧ markersBy p w1 = 0 ∧ circlesBy p w1 = 0
  ∧ p < length (passes w1).
Proof.
  intros HI Hready p w1. subst w1.
  rewrite (syncEffect_ready _ _ Hready). fold p.
  split; [|split; [|split; [|split]]].
  - simpl. rewrite lookup_app_r by (subst p; lia).
    by rewrite Nat.sub_diag.
  - unfold inflightOf. simpl. rewrite list.filter_app, length_app.
    pose proof (inflightOf_new_pass w p HI (Nat.le_refl _)) as H0.
    unfold inflightOf in H0. rewrite H0.
    rewrite (filter_length_all _ (requestsOf _)); [done|].
    by intros cb Hcb%outcomes_pass.
  - unfold markersBy. simpl. rewrite detachMarkers_count.
    by apply markersBy_new_pass.
  - unfold circlesBy. simpl. rewrite detachCircles_count.
    by apply circlesBy_new_pass.
  - simpl. rewrite length_app. simpl. subst p. lia.
Qed.

(** A request is only issued for a record whose address cell is not empty. *)
Lemma requirementOutcome_addressed props p index r cb :
  requirementOutcome props p index r = Requested cb →
  requirementHasAddress props r = true.
Proof.
  unfold requirementOutcome, requirementHasAddress, readRequirement.
  destruct (readCell (requirementAddressField props) r) as [v|err];
    cbn; [|done].
  unfold requirementAddress.
  destruct (truthy v) eqn:Hv; cbn; done.
Qed.

Lemma requirementOutcomes_addressed props p index records :
  length (requestsOf (requirementOutcomes props p index records))
  ≤ countIf (requirementHasAddress props) records.
Proof.
  revert index. induction records as [|r rs IH]; intros index; [done|].
  cbn [requirementOutcomes countIf]. specialize (IH (S index)).
  destruct (requirementOutcome props p index r) as [cb|msg] eqn:Ho;
    cbn [requestsOf length].
  - rewrite (requirementOutcome_addressed _ _ _ _ _ Ho). lia.
  - lia.
Qed.

Lemma readListing_address props record lf :
  readListing props record = Ret lf →
  readCellAsString (listingAddressField props) record = Ret (lfAddress lf).
Proof.
  unfold readListing.
  destruct (readCellAsString (listingAddressField props) record) as [a|]; [|done].
  cbn.
  destruct (readCellAsString (listingUrlField props) record); [|done]. cbn.
  destruct (readCell (listingDistanceField props) record); [|done]. cbn.
  destruct (readCell (listingDriveTimeField props) record); [|done]. cbn.
  destruct (readCellAsString (listingImageUrlField props) record); [|done]. cbn.
  destruct (readCellAsString (listingPropertyTypeField props) record); [|done].
  cbn.
  destruct (readRequirementName (listingRequirementsField props) record);
    [|done].
  cbn. by intros [= <-].
Qed.

Lemma listingOutcome_addressed props p r cb :
  listingOutcome props p r = Requested cb →
  listingHasAddress props r = true.
Proof.
  unfold listingOutcome, listingHasAddress.
  destruct (readListing props r) as [lf|err] eqn:Hread; [|done].
  rewrite (readListing_address _ _ _ Hread).
  by destruct (truthy (lfAddress lf)).
Qed.

Lemma listingOutcomes_addressed props p records :
  length (requestsOf (listingOutcomes props p records))
  ≤ countIf (listingHasAddress props) records.
Proof.
  induction records as [|r rs IH]; [done|].
  cbn [listingOutcomes map countIf]. fold (listingOutcomes props p rs).
  destruct (listingOutcome props p r) as [cb|msg] eqn:Ho;
    cbn [requestsOf length].
  - rewrite (listingOutcome_addressed _ _ _ _ Ho). lia.
  - lia.
Qed.

Lemma outcomes_addressed inp p :
  length (requestsOf (outcomes inp p)) ≤ addressedCount inp.
Proof.
  unfold outcomes, addressedCount. rewrite requestsOf_app, length_app.
  pose proof (requirementOutcomes_addressed (customPropertyValueByKey inp) p 0
                (default [] (requirementRecords inp))).
  pose proof (listingOutcomes_addressed (customPropertyValueByKey inp) p
                (default [] (listingRecords inp))).
  lia.
Qed.

(** * The claims *)

(** ** C3 *)

(** C3.  A run of the effect body that passes its guard sets the expected
    callback count of the pass it starts to the number of Requirement
    records plus the number of Listing records, whatever their address
    cells hold (the count looks at no cell), and no later step changes it. *)
Theorem totalRecords_counts_every_record (inp : Inputs) (w : World) :
  ready inp = true →
  (∃ env, passes (syncEffect inp w) !! length (passes w) = Some env
          ∧ totalRecords env
            = recordCount (requirementRecords inp)
              + recordCount (listingRecords inp)
          ∧ ∀ R L, requirementRecords inp = Some R →
                   listingRecords inp = Some L →
                   totalRecords env = length R + length L)
  ∧ ∀ evs, ∃ env, passes (run evs (syncEffect inp w)) !! length (passes w)
                  = Some env
                  ∧ totalRecords env
                    = recordCount (requirementRecords inp)
                      + recordCount (listingRecords inp).
Proof.
  intros Hready.
  assert (Hnew : passes (syncEffect inp w) !! length (passes w)
    = Some {| bounds := [];
              markerCount := skippedCount (outcomes inp (length (passes w)));
              totalRecords := recordCount (requirementRecords inp)
                              + recordCount (listingRecords inp) |}).
  { rewrite (syncEffect_ready _ _ Hready). simpl.
    rewrite lookup_app_r by lia. by rewrite Nat.sub_diag. }
  split.
  - eexists. split; [exact Hnew|]. split; [done|].
    intros R L HR HL. simpl. by rewrite HR, HL.
  - intros evs.
    destruct (run_pass_persists _ evs _ _ Hnew) as (env' & Hp & Ht).
    exists env'. split; [done|]. by rewrite Ht.
Qed.

Lemma totalRecords_counts_every_record_witness :
  ∃ env, passes (syncEffect Demo.twoAndOne initialWorld) !! 0 = Some env
         ∧ totalRecords env = 3.
Proof.
  destruct (totalRecords_counts_every_record Demo.twoAndOne initialWorld
              eq_refl) as [(env & Hp & Ht & _) _].
  exists env. split; [exact Hp | exact Ht].
Defined.

(** ** C1 *)

(** C1.  In every reachable world and for every pass, [fitBounds] has been
    called for that pass exactly once if and only if its counter has
    reached its expected count and at least one of its geocodes succeeded;
    it has never been called more than once, and never when none of its
    geocodes succeeded.  The bounds region is non-empty exactly when a
    geocode of the pass succeeded. *)
Theorem fitBounds_once_iff_complete_and_found
    (evs : list Event) (p : nat) (env : PassEnv) :
  passes (run evs initialWorld) !! p = Some env →
  let w := run evs initialWorld in
  let succeeded := successes (ofPass p) evs initialWorld in
  (fitCount p w = 1
   ↔ markerCount env = totalRecords env ∧ 0 < succeeded)
  ∧ fitCount p w ≤ 1
  ∧ (succeeded = 0 → fitCount p w = 0)
  ∧ (isEmpty (bounds env) = false ↔ 0 < succeeded).
Proof.
  intros Hp w succeeded.
  pose proof (Inv_reachable evs) as HI. fold w in HI.
  pose proof (inv_fit _ HI _ _ Hp) as Hfit.
  pose proof (boundsLength_run p evs initialWorld Inv_initial) as Hb.
  fold w succeeded in Hb. unfold boundsLength in Hb at 1.
  fold w in Hp. rewrite Hp in Hb. simpl in Hb.
  unfold fitDecision in Hfit.
  assert (Hempty : isEmpty (bounds env) = false ↔ 0 < succeeded).
  { destruct (bounds env); simpl in *; split; intros; try done; lia. }
  destruct (Nat.eqb_spec (markerCount env) (totalRecords env)) as [Heq|Hne];
    destruct (isEmpty (bounds env)) eqn:He; simpl in Hfit;
    rewrite Hfit; (split; [|split; [|split]]); try done; try lia;
    split; try lia; try tauto.
Qed.

Lemma fitBounds_once_iff_complete_and_found_witness :
  let w := run Demo.twoAndOneRun initialWorld in
  fitCount 0 w = 1 ∧ fitCount 0 w ≤ 1.
Proof.
  pose proof (fitBounds_once_iff_complete_and_found Demo.twoAndOneRun 0
    {| bounds := [Demo.position 3 4; Demo.position 1 2];
       markerCount := 3; totalRecords := 3 |} eq_refl) as (H1 & H2 & _).
  split; [|exact H2].
  apply H1. split; [reflexivity|]. vm_compute. lia.
Defined.

(** ** C2 *)

(** C2, as stated, fails: one Requirement record whose address resolves
    gives two overlays (its marker and its circle), more than the one
    record with an address and more than the one successful callback. *)
Lemma overlays_exceed_successful_geocodes :
  let w1 := syncEffect Demo.oneRequirement initialWorld in
  let evs := [GeocoderAnswers 0 (Demo.found 1 2) "OK"] in
  let w := run evs w1 in
  addressedCount Demo.oneRequirement = 1
  ∧ successes (ofPass 0) evs w1 = 1
  ∧ overlaysBy 0 w = 2
  ∧ ¬ (overlaysBy 0 w ≤ addressedCount Demo.oneRequirement
       ∧ overlaysBy 0 w = successes (ofPass 0) evs w1).
Proof.
  cbv zeta.
  assert (H1 : addressedCount Demo.oneRequirement = 1) by reflexivity.
  assert (H2 : successes (ofPass 0)
                 [GeocoderAnswers 0 (Demo.found 1 2) "OK"]
                 (syncEffect Demo.oneRequirement initialWorld) = 1)
    by reflexivity.
  assert (H3 : overlaysBy 0
                 (run [GeocoderAnswers 0 (Demo.found 1 2) "OK"]
                    (syncEffect Demo.oneRequirement initialWorld)) = 2)
    by reflexivity.
  rewrite H1, H2, H3. repeat split; lia.
Qed.

(** C2, amended.  For the pass started by a run of the effect body, at any
    later moment: the markers it created are as many as its successful
    geocode callbacks and at most as many as the records with a non-empty
    address cell; its circles are as many as its successful Requirement
    callbacks; so its overlays number the successful callbacks plus the
    successful Requirement callbacks. *)
Theorem markers_match_successful_geocodes
    (evs0 : list Event) (inp : Inputs) (evs : list Event) :
  ready inp = true →
  let w0 := run evs0 initialWorld in
  let p := length (passes w0) in
  let w1 := syncEffect inp w0 in
  let w := run evs w1 in
  markersBy p w = successes (ofPass p) evs w1
  ∧ markersBy p w ≤ addressedCount inp
  ∧ circlesBy p w = successes (requirementOfPass p) evs w1
  ∧ overlaysBy p w = successes (ofPass p) evs w1
                     + successes (requirementOfPass p) evs w1.
Proof.
  intros Hready w0 p w1 w.
  pose proof (Inv_reachable evs0) as HI0. fold w0 in HI0.
  destruct (syncEffect_new_pass inp w0 HI0 Hready)
    as (Hnew & Hfl & Hm0 & Hc0 & Hlt).
  fold p w1 in Hnew, Hfl, Hm0, Hc0, Hlt.
  assert (HI1 : Inv w1) by (by apply Inv_syncEffect).
  pose proof (markersBy_run p evs w1) as Hm. fold w in Hm.
  pose proof (circlesBy_run p evs w1) as Hc. fold w in Hc.
  pose proof (inflightOf_run p evs w1 HI1 Hlt) as Hin.
  pose proof (outcomes_addressed inp p) as Haddr.
  unfold overlaysBy. rewrite Hm, Hc, Hm0, Hc0. simpl.
  repeat split; lia.
Qed.

Lemma markers_match_successful_geocodes_witness :
  let w := run Demo.twoAndOneRun initialWorld in
  markersBy 0 w = 2 ∧ circlesBy 0 w = 2 ∧ overlaysBy 0 w = 4.
Proof.
  destruct (markers_match_successful_geocodes [] Demo.twoAndOne
              [GeocoderAnswers 1 (Demo.found 3 4) "OK";
               GeocoderAnswers 0 (Demo.found 1 2) "OK"] eq_refl)
    as (Hm & _ & Hc & Ho).
  vm_compute in Hm, Hc, Ho. vm_compute.
  split; [exact Hm | split; [exact Hc | exact Ho]].
Defined.

(** ** C10 *)

(** C10.  When both collections are empty, a run of the effect body queues
    no geocode request, constructs no overlay and calls [fitBounds] not at
    all; afterwards, whatever happens, the pass it started has no request
    in flight, no overlay and no [fitBounds] call, its counter staying at
    zero since no callback of that pass exists. *)
Theorem empty_collections_never_fit
    (evs0 : list Event) (inp : Inputs) (evs : list Event) :
  ready inp = true →
  recordCount (requirementRecords inp) = 0 →
  recordCount (listingRecords inp) = 0 →
  let w0 := run evs0 initialWorld in
  let p := length (passes w0) in
  let w1 := syncEffect inp w0 in
  let w := run evs w1 in
  inflight w1 = inflight w0
  ∧ length (markerHeap w1) = length (markerHeap w0)
  ∧ length (circleHeap w1) = length (circleHeap w0)
  ∧ fitBoundsCalls w1 = fitBoundsCalls w0
  ∧ inflightOf p w = 0
  ∧ overlaysBy p w = 0
  ∧ fitCount p w = 0
  ∧ passes w !! p
    = Some {| bounds := []; markerCount := 0; totalRecords := 0 |}.
Proof.
  intros Hready HR HL w0 p w1 w.
  pose proof (Inv_reachable evs0) as HI0. fold w0 in HI0.
  assert (Hos : outcomes inp p = []).
  { apply length_zero_iff_nil. rewrite outcomes_length. lia. }
  destruct (syncEffect_new_pass inp w0 HI0 Hready)
    as (Hnew & Hfl & Hm0 & Hc0 & Hlt).
  fold p w1 in Hnew, Hfl, Hm0, Hc0, Hlt.
  rewrite Hos, HR, HL in Hnew. rewrite Hos in Hfl. simpl in Hnew, Hfl.
  assert (HI1 : Inv w1) by (by apply Inv_syncEffect).
  assert (HI : Inv w) by (by apply Inv_run).
  pose proof (inflightOf_run p evs w1 HI1 Hlt) as Hin. fold w in Hin.
  pose proof (markersBy_run p evs w1) as Hm. fold w in Hm.
  pose proof (circlesBy_run p evs w1) as Hc. fold w in Hc.
  pose proof (successes_mono (requirementOfPass p) (ofPass p) evs w1) as Hmono.
  assert (Hle : successes (requirementOfPass p) evs w1
                ≤ successes (ofPass p) evs w1).
  { apply Hmono. unfold requirementOfPass. by intros cb [? _]%andb_true_iff. }
  pose proof (boundsLength_run p evs w1 HI1) as Hb. fold w in Hb.
  unfold boundsLength in Hb. rewrite Hnew in Hb. simpl in Hb.
  destruct (run_pass_persists p evs w1 _ Hnew) as (env & Henv & Htot).
  fold w in Henv. simpl in Htot. rewrite Henv in Hb.
  pose proof (inv_count _ HI _ _ Henv) as Hcount.
  pose proof (inv_fit _ HI _ _ Henv) as Hfit.
  assert (Henv' : env = {| bounds := []; markerCount := 0; totalRecords := 0 |}).
  { destruct env as [b c t]. simpl in *.
    assert (b = []) as -> by (apply length_zero_iff_nil; lia).
    f_equal; lia. }
  subst env. unfold fitDecision in Hfit. simpl in Hfit.
  subst w1. rewrite (syncEffect_ready _ _ Hready). fold p. rewrite Hos. simpl.
  rewrite !app_nil_r.
  change (detachMarkers (markersRef w0) (markerHeap w0))
    with (detachAll detachMarker (markersRef w0) (markerHeap w0)).
  change (detachCircles (circlesRef w0) (circleHeap w0))
    with (detachAll detachCircle (circlesRef w0) (circleHeap w0)).
  rewrite !detachAll_length by done.
  unfold overlaysBy. repeat split; try done; lia.
Qed.

Lemma empty_collections_never_fit_witness :
  let w := run [GeocoderAnswers 0 (Demo.found 1 2) "OK"]
             (syncEffect (Demo.inputs [] []) initialWorld) in
  inflightOf 0 w = 0 ∧ overlaysBy 0 w = 0 ∧ fitCount 0 w = 0.
Proof.
  destruct (empty_collections_never_fit [] (Demo.inputs [] [])
              [GeocoderAnswers 0 (Demo.found 1 2) "OK"]
              eq_refl eq_refl eq_refl)
    as (_ & _ & _ & _ & Hin & Hov & Hfit & _).
  split; [exact Hin | split; [exact Hov | exact Hfit]].
Defined.

(** ** C4 *)

Lemma detachMarkers_keeps refs heap m0 :
  m0 ∈ heap →
  ∃ m, m ∈ detachMarkers refs heap ∧ markerPass m = markerPass m0
       ∧ markerPosition m = markerPosition m0
       ∧ markerContent m = markerContent m0.
Proof.
  intros Hm. apply list_elem_of_lookup in Hm as [h Hh].
  pose proof (detachAll_Forall2 detachMarker detachMarker_idem refs heap) as HF.
  destruct (Forall2_lookup_l _ _ _ _ _ HF Hh) as (m & Hm & Hor).
  exists m. split; [by eapply list_elem_of_lookup_2|].
  by destruct Hor as [->| ->].
Qed.

Lemma CirclesAccompany_step e w : CirclesAccompany w → CirclesAccompany (step e w).
Proof.
  intros HC. destruct e as [inp|i results status]; simpl.
  - destruct (ready inp) eqn:Hready; [|by rewrite syncEffect_not_ready].
    rewrite (syncEffect_ready _ _ Hready). intros c. simpl.
    intros (c0 & Hc0 & Hpass & Hcen & Hrad)%detachCircles_pass.
    destruct (HC _ Hc0) as (Hr & m0 & Hm0 & Hreq & Hpos & Hmp).
    split; [congruence|].
    destruct (detachMarkers_keeps (markersRef w) _ _ Hm0)
      as (m & Hm & Hmpass & Hmpos & Hmcont).
    exists m. split; [done|]. unfold isRequirementMarker in *.
    rewrite Hmcont. repeat split; congruence.
  - destruct (inflight w !! i) as [cb|] eqn:Hcb; [|by rewrite answer_none].
    intros c. rewrite (answer_circleHeap _ _ _ _ _ Hcb),
      (answer_markerHeap _ _ _ _ _ Hcb).
    intros [Hc|Hc]%elem_of_app.
    + destruct (HC _ Hc) as (Hr & m & Hm & Hrest).
      split; [done|]. exists m. split; [|done]. apply elem_of_app. by left.
    + destruct (firstResult results status) as [[r|]|err];
        try by apply elem_of_nil in Hc.
      destruct cb as [p a s|]; simpl in Hc; [|by apply elem_of_nil in Hc].
      apply list_elem_of_singleton in Hc as ->. split; [done|].
      eexists. split; [apply elem_of_app; right; by left|]. done.
Qed.

Lemma CirclesAccompany_reachable evs : CirclesAccompany (run evs initialWorld).
Proof.
  induction evs as [|e evs IH] using rev_ind.
  - by intros c ?%elem_of_nil.
  - rewrite run_snoc. by apply CirclesAccompany_step.
Qed.

(** C4.  In a reachable world, a geocode callback that succeeds (status OK,
    a first result [r]) constructs, for a Requirement, exactly one marker at
    the position of [r] and exactly one circle centred there with radius
    24140.16, both on the map; for a Listing, exactly one marker and no
    circle.  Afterwards every circle there is has radius 24140.16 and a
    Requirement marker of the same pass at its centre. *)
Theorem success_draws_marker_and_requirement_circle
    (evs : list Event) (i : nat) (cb : Callback)
    (r : GeocoderResult) (others : list GeocoderResult) :
  let w := run evs initialWorld in
  inflight w !! i = Some cb →
  let w' := answer i (Some (r :: others)) "OK" w in
  match cb with
  | RequirementCallback p address siteCode =>
      markerHeap w'
      = markerHeap w ++ [requirementMarker p true (location r) address siteCode]
      ∧ ∃ c, circleHeap w' = circleHeap w ++ [c]
             ∧ circleCenter c = location r
             ∧ circleRadius c = 24140.16%Q
             ∧ circleOnMap c = true
  | ListingCallback p address imageUrl url propertyType requirementName
                    distance driveTime =>
      markerHeap w'
      = markerHeap w ++ [listingMarker p true (location r) address imageUrl
                           url propertyType requirementName distance driveTime]
      ∧ circleHeap w' = circleHeap w
  end
  ∧ CirclesAccompany w'.
Proof.
  intros w Hcb w'.
  pose proof (Inv_reachable evs) as HI. fold w in HI.
  assert (Hmap : mapInstance w = true).
  { apply (inv_map _ HI).
    pose proof (inv_inflight _ HI cb (list_elem_of_lookup_2 _ _ _ Hcb)) as Hlt.
    intros Hnil. rewrite Hnil in Hlt. simpl in Hlt. lia. }
  split.
  - subst w'. rewrite (answer_markerHeap _ _ _ _ _ Hcb),
      (answer_circleHeap _ _ _ _ _ Hcb). simpl. rewrite Hmap.
    destruct cb; simpl.
    + split; [done|]. eexists. split; [done|]. done.
    + by rewrite app_nil_r.
  - subst w'. change (answer i (Some (r :: others)) "OK" w)
      with (step (GeocoderAnswers i (Some (r :: others)) "OK") w).
    apply CirclesAccompany_step, CirclesAccompany_reachable.
Qed.

Lemma success_draws_marker_and_requirement_circle_witness :
  let w := run [EffectRuns Demo.oneRequirement] initialWorld in
  let w' := answer 0 (Demo.found 1 2) "OK" w in
  length (markerHeap w') = 1 ∧ length (circleHeap w') = 1.
Proof.
  destruct (success_draws_marker_and_requirement_circle
              [EffectRuns Demo.oneRequirement] 0
              (RequirementCallback 0 (Str "A") "R1")
              {| location := Demo.position 1 2 |} [] eq_refl)
    as [[Hm (c & Hc & _)] _].
  split.
  - exact (f_equal length Hm).
  - exact (f_equal length Hc).
Defined.

(** ** C6 *)

(** C6.  In a reachable world, a geocode callback that is handed a status
    other than OK constructs no marker and no circle and leaves the
    holding lists alone, increments the counter of its pass by one, throws
    nothing, logs the failure, and leaves every other request in flight and
    every other pass untouched. *)
Theorem failed_geocode_counts_without_overlay
    (evs : list Event) (i : nat) (cb : Callback)
    (results : option (list GeocoderResult)) (status : string) :
  let w := run evs initialWorld in
  inflight w !! i = Some cb →
  status ≠ "OK" →
  let w' := answer i results status w in
  markerHeap w' = markerHeap w ∧ circleHeap w' = circleHeap w
  ∧ markersRef w' = markersRef w ∧ circlesRef w' = circlesRef w
  ∧ (∃ env, passes w !! callbackPass cb = Some env
            ∧ passes w' !! callbackPass cb = Some (tick env)
            ∧ markerCount (tick env) = markerCount env + 1)
  ∧ uncaught w' = uncaught w
  ∧ console w' = console w ++ [GeocodingFailedFor (callbackAddress cb) status]
  ∧ inflight w' = delete i (inflight w)
  ∧ ∀ q, q ≠ callbackPass cb → passes w' !! q = passes w !! q.
Proof.
  intros w Hcb Hstatus w'.
  pose proof (Inv_reachable evs) as HI. fold w in HI.
  assert (Hfirst : firstResult results status = Ret None).
  { unfold firstResult.
    destruct (String.eqb_spec status "OK"); [done|reflexivity]. }
  subst w'.
  rewrite (answer_markerHeap _ _ _ _ _ Hcb), (answer_circleHeap _ _ _ _ _ Hcb),
    (answer_markersRef _ _ _ _ _ Hcb), (answer_circlesRef _ _ _ _ _ Hcb),
    (answer_uncaught _ _ _ _ _ Hcb), (answer_console _ _ _ _ _ Hcb),
    (answer_inflight _ _ _ _ _ Hcb), (answer_passes _ _ _ _ _ Hcb), Hfirst.
  rewrite !app_nil_r. simpl.
  pose proof (inv_inflight _ HI cb (list_elem_of_lookup_2 _ _ _ Hcb)) as Hlt.
  destruct (lookup_lt_is_Some_2 _ _ Hlt) as [env Henv].
  repeat split; try done.
  - exists env. split; [done|]. rewrite list_lookup_alter_eq, Henv.
    split; [done|]. simpl. lia.
  - intros q Hq. by rewrite list_lookup_alter_ne.
Qed.

Lemma failed_geocode_counts_without_overlay_witness :
  let w := run [EffectRuns Demo.oneRequirement] initialWorld in
  let w' := answer 0 None "ZERO_RESULTS" w in
  markerHeap w' = [] ∧ circleHeap w' = [] ∧ uncaught w' = [].
Proof.
  destruct (failed_geocode_counts_without_overlay
              [EffectRuns Demo.oneRequirement] 0
              (RequirementCallback 0 (Str "A") "R1") None "ZERO_RESULTS"
              eq_refl ltac:(discriminate))
    as (Hm & Hc & _ & _ & _ & Hu & _).
  split; [exact Hm | split; [exact Hc | exact Hu]].
Defined.

(** ** C8 *)

Lemma answer_other_pass w i cb results status q :
  inflight w !! i = Some cb → q ≠ callbackPass cb →
  passes (answer i results status w) !! q = passes w !! q
  ∧ fitCallsOf q (answer i results status w) = fitCallsOf q w.
Proof.
  intros Hcb Hq. split.
  - rewrite (answer_passes _ _ _ _ _ Hcb), passesAfter_alter.
    by rewrite list_lookup_alter_ne.
  - unfold fitCallsOf. rewrite (answer_fitBoundsCalls _ _ _ _ _ Hcb).
    rewrite list.filter_app.
    destruct (firstResult results status) as [[r|]|err];
      rewrite ?fitNow_other by done; by rewrite app_nil_r.
Qed.

(** C8.  A run of the effect body gives the pass it starts locals of its
    own: a new slot with empty bounds, while the locals of every earlier
    pass stay as they were.  When later a callback of any other pass (in
    particular of an earlier one) is answered, it updates the counter and
    the bounds of its own pass only: the locals of the newer pass and the
    [fitBounds] calls made for it are unchanged. *)
Theorem stale_callback_cannot_disturb_newer_pass
    (evs0 : list Event) (inp : Inputs) (evs : list Event)
    (j : nat) (cb : Callback)
    (results : option (list GeocoderResult)) (status : string) :
  ready inp = true →
  let w0 := run evs0 initialWorld in
  let p := length (passes w0) in
  let w1 := syncEffect inp w0 in
  let w2 := run evs w1 in
  inflight w2 !! j = Some cb →
  callbackPass cb ≠ p →
  let w3 := answer j results status w2 in
  (∃ env, passes w1 !! p = Some env ∧ bounds env = []
          ∧ markerCount env + inflightOf p w1 = totalRecords env)
  ∧ (∀ q, q < p → passes w1 !! q = passes w0 !! q
                  ∧ fitCallsOf q w1 = fitCallsOf q w0)
  ∧ passes w3 !! p = passes w2 !! p
  ∧ fitCallsOf p w3 = fitCallsOf p w2
  ∧ passes w3 !! callbackPass cb
    = envAfter (firstResult results status) <$> passes w2 !! callbackPass cb.
Proof.
  intros Hready w0 p w1 w2 Hcb Hne w3.
  pose proof (Inv_reachable evs0) as HI0. fold w0 in HI0.
  destruct (syncEffect_new_pass inp w0 HI0 Hready)
    as (Hnew & Hfl & _ & _ & _).
  fold p w1 in Hnew, Hfl.
  split; [|split; [|split; [|split]]].
  - eexists. split; [exact Hnew|]. split; [done|]. simpl. rewrite Hfl.
    pose proof (skipped_requests_length (outcomes inp p)).
    pose proof (outcomes_length inp p). lia.
  - intros q Hq. subst w1. rewrite (syncEffect_ready _ _ Hready). simpl.
    split; [|done]. by rewrite lookup_app_l.
  - apply (answer_other_pass w2 j cb results status p Hcb). congruence.
  - apply (answer_other_pass w2 j cb results status p Hcb). congruence.
  - subst w3. rewrite (answer_passes _ _ _ _ _ Hcb), passesAfter_alter.
    by rewrite list_lookup_alter_eq.
Qed.

Lemma stale_callback_cannot_disturb_newer_pass_witness :
  let w2 := run [EffectRuns Demo.oneRequirement; EffectRuns Demo.oneRequirement]
              initialWorld in
  let w3 := answer 0 (Demo.found 1 2) "OK" w2 in
  passes w3 !! 1 = passes w2 !! 1 ∧ fitCallsOf 1 w3 = fitCallsOf 1 w2.
Proof.
  destruct (stale_callback_cannot_disturb_newer_pass
              [EffectRuns Demo.oneRequirement] Demo.oneRequirement [] 0
              (RequirementCallback 0 (Str "A") "R1") (Demo.found 1 2) "OK"
              eq_refl eq_refl ltac:(discriminate))
    as (_ & _ & Hp & Hf & _).
  vm_compute in Hp, Hf. vm_compute.
  split; [exact Hp | exact Hf].
Defined.

(** ** C9 *)

(** C9.  When the reads of a record's [try] block throw, the catch block
    runs for that record alone: no geocode request is queued and no overlay
    constructed, the error is logged, the counter of the pass goes up by
    one, and the loop goes on with the remaining records. *)
Theorem thrown_read_is_caught_per_record
    (kind : RecordKind) (props : CustomProperties) (p index : nat)
    (record : AirtableRecord) (rest : list AirtableRecord)
    (w : World) (env : PassEnv) (err : string) :
  readThrows kind props record err →
  passes w !! p = Some env →
  let w' := processRecord kind props p index record w in
  inflight w' = inflight w
  ∧ markerHeap w' = markerHeap w ∧ circleHeap w' = circleHeap w
  ∧ markersRef w' = markersRef w ∧ circlesRef w' = circlesRef w
  ∧ passes w' !! p = Some (tick env)
  ∧ markerCount (tick env) = markerCount env + 1
  ∧ console w' = console w ++ [errorProcessing kind err]
  ∧ uncaught w' = uncaught w
  ∧ forEachRecord kind props p index (record :: rest) w
    = forEachRecord kind props p (S index) rest w'.
Proof.
  intros Hthrow Hp w'.
  assert (Hw' : w' = checkAndFitBounds p (warn (errorProcessing kind err) w)).
  { subst w'. destruct kind; simpl in *.
    - unfold processRequirement. by rewrite Hthrow.
    - unfold processListing. by rewrite Hthrow. }
  assert (Hloop : forEachRecord kind props p index (record :: rest) w
                  = forEachRecord kind props p (S index) rest w').
  { subst w'. by destruct kind. }
  repeat split; [ .. | exact Hloop ];
    try (rewrite Hw', checkAndFitBounds_unfold; simpl); try done.
  - by rewrite list_lookup_alter_eq, Hp.
  - simpl. lia.
Qed.

Lemma thrown_read_is_caught_per_record_witness :
  let w := setPasses [newPass (Demo.inputs [Demo.deleted] [])] initialWorld in
  let w' := processRecord RequirementKind Demo.keys 0 0 Demo.deleted w in
  inflight w' = [] ∧ markerHeap w' = []
  ∧ console w' = [ErrorProcessingRequirement "record deleted"].
Proof.
  destruct (thrown_read_is_caught_per_record RequirementKind Demo.keys 0 0
              Demo.deleted []
              (setPasses [newPass (Demo.inputs [Demo.deleted] [])] initialWorld)
              (newPass (Demo.inputs [Demo.deleted] [])) "record deleted"
              eq_refl eq_refl)
    as (Hin & Hm & _ & _ & _ & _ & _ & Hco & _).
  vm_compute in Hin, Hm, Hco. vm_compute.
  split; [exact Hin | split; [exact Hm | exact Hco]].
Defined.

(** ** C5 *)

(** A record whose resolved address is empty is counted without a request
    and without an overlay; only the Requirement loop logs the condition. *)
Lemma requirement_without_address props p index record w env address :
  readRequirement props record = Ret address → truthy address = false →
  passes w !! p = Some env →
  let w' := processRequirement props p index record w in
  inflight w' = inflight w
  ∧ markerHeap w' = markerHeap w ∧ circleHeap w' = circleHeap w
  ∧ passes w' !! p = Some (tick env)
  ∧ console w' = console w ++ [NoAddressFoundForRequirement (index + 1)].
Proof.
  intros Hread Hfalsy Hp w'. subst w'. unfold processRequirement.
  rewrite Hread, Hfalsy, checkAndFitBounds_unfold. simpl.
  by rewrite list_lookup_alter_eq, Hp.
Qed.

Lemma listing_without_address props p record w env lf :
  readListing props record = Ret lf → truthy (lfAddress lf) = false →
  passes w !! p = Some env →
  let w' := processListing props p record w in
  inflight w' = inflight w
  ∧ markerHeap w' = markerHeap w ∧ circleHeap w' = circleHeap w
  ∧ passes w' !! p = Some (tick env)
  ∧ console w' = console w.
Proof.
  intros Hread Hfalsy Hp w'. subst w'. unfold processListing.
  rewrite Hread, Hfalsy, checkAndFitBounds_unfold. simpl.
  by rewrite list_lookup_alter_eq, Hp.
Qed.

(** C5, at a Listing without an address.  The effect queues no request,
    constructs no overlay and counts the record, but writes nothing to the
    console; the Requirement loop logs the same condition. *)
Lemma listing_without_address_is_not_logged :
  let w := syncEffect (Demo.inputs [] [Demo.listing ""]) initialWorld in
  inflight w = [] ∧ markerHeap w = [] ∧ circleHeap w = []
  ∧ passes w = [{| bounds := []; markerCount := 1; totalRecords := 1 |}]
  ∧ console w = []
  ∧ console (syncEffect (Demo.inputs [Demo.requirement "R1" Null] [])
               initialWorld)
    = [NoAddressFoundForRequirement 1].
Proof. repeat split; reflexivity. Qed.

(** ** C7 *)

Lemma pendingViews_Permutation {V} (f : Callback → GeocoderResult → list V)
    geo (l l' : list Callback) :
  l ≡ₚ l' → pendingViews f geo l ≡ₚ pendingViews f geo l'.
Proof.
  induction 1 as [|x l l' _ IH|x y l|l l' l'' _ IH1 _ IH2]; simpl.
  - done.
  - by rewrite IH.
  - rewrite !app_assoc. f_equiv. apply Permutation_app_comm.
  - by rewrite IH1.
Qed.

Lemma pendingViews_withPass {V} (f : Callback → GeocoderResult → list V)
    geo p (l : list Callback) :
  (∀ cb r, f (withPass p cb) r = f cb r) →
  pendingViews f geo (map (withPass p) l) = pendingViews f geo l.
Proof.
  intros Hf. induction l as [|cb l IH]; [done|].
  simpl. rewrite IH.
  assert (Ha : callbackAddress (withPass p cb) = callbackAddress cb)
    by (by destruct cb).
  rewrite Ha.
  destruct (firstResult _ _) as [[r|]|err]; by rewrite ?Hf.
Qed.

Lemma requestsOf_cons o os :
  requestsOf (o :: os) = requestsOf [o] ++ requestsOf os.
Proof. by destruct o as [cb|msg]. Qed.

Lemma requirementOutcome_withPass props p index r :
  requestsOf [requirementOutcome props p index r]
  = map (withPass p) (requestsOf [requirementOutcome props 0 index r]).
Proof.
  unfold requirementOutcome.
  destruct (readRequirement props r) as [a|e]; [destruct (truthy a)|]; done.
Qed.

Lemma listingOutcome_withPass props p r :
  requestsOf [listingOutcome props p r]
  = map (withPass p) (requestsOf [listingOutcome props 0 r]).
Proof.
  unfold listingOutcome.
  destruct (readListing props r) as [lf|e];
    [destruct (truthy (lfAddress lf))|]; done.
Qed.

Lemma requirementOutcomes_withPass props p index records :
  requestsOf (requirementOutcomes props p index records)
  = map (withPass p) (requestsOf (requirementOutcomes props 0 index records)).
Proof.
  revert index. induction records as [|r rs IH]; intros index; [done|].
  cbn [requirementOutcomes].
  rewrite (requestsOf_cons (requirementOutcome props p index r)),
    (requestsOf_cons (requirementOutcome props 0 index r)), map_app.
  by rewrite IH, requirementOutcome_withPass.
Qed.

Lemma listingOutcomes_withPass props p records :
  requestsOf (listingOutcomes props p records)
  = map (withPass p) (requestsOf (listingOutcomes props 0 records)).
Proof.
  induction records as [|r rs IH]; [done|].
  change (listingOutcomes props p (r :: rs))
    with (listingOutcome props p r :: listingOutcomes props p rs).
  change (listingOutcomes props 0 (r :: rs))
    with (listingOutcome props 0 r :: listingOutcomes props 0 rs).
  rewrite (requestsOf_cons (listingOutcome props p r)),
    (requestsOf_cons (listingOutcome props 0 r)), map_app.
  by rewrite IH, listingOutcome_withPass.
Qed.

Lemma outcomes_withPass inp p :
  requestsOf (outcomes inp p)
  = map (withPass p) (requestsOf (outcomes inp 0)).
Proof.
  unfold outcomes.
  rewrite !requestsOf_app, map_app.
  by rewrite requirementOutcomes_withPass, listingOutcomes_withPass.
Qed.

Lemma shown_deliver geo w i :
  mapInstance w = true →
  shownMarkers (deliver geo w i)
    ++ pendingViews markerViewFor geo (inflight (deliver geo w i))
  ≡ₚ shownMarkers w ++ pendingViews markerViewFor geo (inflight w)
  ∧ shownCircles (deliver geo w i)
      ++ pendingViews circleViewsFor geo (inflight (deliver geo w i))
    ≡ₚ shownCircles w ++ pendingViews circleViewsFor geo (inflight w).
Proof.
  intros Hmap. unfold deliver.
  destruct (inflight w !! i) as [cb|] eqn:Hcb; [|done].
  set (results := (geo (callbackAddress cb)).1).
  set (status := (geo (callbackAddress cb)).2).
  pose proof (delete_Permutation _ _ _ Hcb) as Hperm.
  split.
  - rewrite (pendingViews_Permutation markerViewFor geo _ _ Hperm).
    unfold shownMarkers, attachedMarkers.
    rewrite (answer_markerHeap _ _ _ _ _ Hcb),
      (answer_inflight _ _ _ _ _ Hcb), Hmap.
    rewrite list.filter_app, map_app. cbn [pendingViews].
    fold results status.
    destruct (firstResult results status) as [[r|]|err].
    + rewrite filter_cons, decide_True by (by destruct cb).
      unfold markerViewFor. simpl. by rewrite <- app_assoc.
    + simpl. by rewrite app_nil_r.
    + simpl. by rewrite app_nil_r.
  - rewrite (pendingViews_Permutation circleViewsFor geo _ _ Hperm).
    unfold shownCircles, attachedCircles.
    rewrite (answer_circleHeap _ _ _ _ _ Hcb),
      (answer_inflight _ _ _ _ _ Hcb), Hmap.
    rewrite list.filter_app, map_app. cbn [pendingViews].
    fold results status.
    destruct (firstResult results status) as [[r|]|err].
    + unfold circleViewsFor. destruct cb; simpl.
      * by rewrite <- app_assoc.
      * by rewrite app_nil_r.
    + simpl. by rewrite app_nil_r.
    + simpl. by rewrite app_nil_r.
Qed.

Lemma deliver_mapInstance geo w i :
  mapInstance (deliver geo w i) = mapInstance w.
Proof.
  unfold deliver. destruct (inflight w !! i) as [cb|] eqn:Hcb; [|done].
  by rewrite (answer_mapInstance _ _ _ _ _ Hcb).
Qed.

Lemma Inv_deliver geo w i : Inv w → Inv (deliver geo w i).
Proof.
  intros HI. unfold deliver. destruct (inflight w !! i); [|done].
  by apply Inv_answer.
Qed.

Lemma Inv_settle geo order w : Inv w → Inv (settle geo order w).
Proof.
  revert w. unfold settle.
  induction order as [|i order IH]; intros w HI; [done|].
  simpl. by apply IH, Inv_deliver.
Qed.

Lemma shown_settle geo order w :
  mapInstance w = true →
  shownMarkers (settle geo order w)
    ++ pendingViews markerViewFor geo (inflight (settle geo order w))
  ≡ₚ shownMarkers w ++ pendingViews markerViewFor geo (inflight w)
  ∧ shownCircles (settle geo order w)
      ++ pendingViews circleViewsFor geo (inflight (settle geo order w))
    ≡ₚ shownCircles w ++ pendingViews circleViewsFor geo (inflight w).
Proof.
  revert w. unfold settle.
  induction order as [|i order IH]; intros w Hmap; [done|].
  simpl.
  destruct (IH (deliver geo w i)) as [IHm IHc];
    [by rewrite deliver_mapInstance|].
  destruct (shown_deliver geo w i Hmap) as [Hm Hc].
  split; etrans; eauto.
Qed.

Lemma settle_quiet geo order w : inflight w = [] → settle geo order w = w.
Proof.
  intros Hq. unfold settle. induction order as [|i order IH]; [done|].
  simpl. unfold deliver at 2. rewrite Hq. simpl. exact IH.
Qed.

(** After the clearing step of a reachable world nothing is on the map. *)
Lemma syncEffect_clears inp w :
  Inv w → ready inp = true →
  attachedMarkers (syncEffect inp w) = []
  ∧ attachedCircles (syncEffect inp w) = []
  ∧ markersRef (syncEffect inp w) = []
  ∧ circlesRef (syncEffect inp w) = [].
Proof.
  intros HI Hready. rewrite (syncEffect_ready _ _ Hready).
  unfold attachedMarkers, attachedCircles. simpl.
  repeat split.
  - apply length_zero_iff_nil, filter_length_all_not. intros m Hm.
    rewrite (detachMarkers_attached _ _ (inv_markers _ HI) m Hm). done.
  - apply length_zero_iff_nil, filter_length_all_not. intros c Hc.
    rewrite (detachCircles_attached _ _ (inv_circles _ HI) c Hc). done.
Qed.

(** The overlays shown once a pass that started from a settled world has
    itself settled: those of its successful requests, in some order. *)
Lemma settled_pass_shows inp geo order w :
  Inv w → ready inp = true → inflight w = [] →
  inflight (settle geo order (syncEffect inp w)) = [] →
  shownMarkers (settle geo order (syncEffect inp w))
  ≡ₚ pendingViews markerViewFor geo (requestsOf (outcomes inp 0))
  ∧ shownCircles (settle geo order (syncEffect inp w))
    ≡ₚ pendingViews circleViewsFor geo (requestsOf (outcomes inp 0)).
Proof.
  intros HI Hready Hq Hdone.
  destruct (shown_settle geo order (syncEffect inp w)) as [Hm Hc].
  { by rewrite (syncEffect_ready _ _ Hready). }
  rewrite Hdone in Hm, Hc. simpl in Hm, Hc. rewrite app_nil_r in Hm, Hc.
  destruct (syncEffect_clears inp w HI Hready) as (Ham & Hac & _).
  unfold shownMarkers at 2 in Hm. unfold shownCircles at 2 in Hc.
  rewrite Ham in Hm. rewrite Hac in Hc. simpl in Hm, Hc.
  assert (Hin : inflight (syncEffect inp w)
                = map (withPass (length (passes w)))
                    (requestsOf (outcomes inp 0))).
  { rewrite (syncEffect_ready _ _ Hready). simpl.
    by rewrite Hq, outcomes_withPass. }
  rewrite Hin in Hm, Hc.
  rewrite pendingViews_withPass in Hm by (by intros []).
  rewrite pendingViews_withPass in Hc by (by intros []).
  done.
Qed.

(** C7, as stated, fails when the pass is run again before the geocoder
    has answered the first run: the first run's callback arrives after the
    second run cleared the map, so once everything has settled the one
    record is shown twice and an overlay of the earlier pass is still on
    the map.  It fails as well when that doubled state is where the
    re-run starts: every callback has been delivered, and the re-run, with
    the same inputs, takes the map from two markers back to one. *)
Lemma overlapping_resync_accumulates :
  let geo := DemoService.everywhere in
  let once := settle geo [0] (syncEffect Demo.oneRequirement initialWorld) in
  let twice := settle geo [0; 0]
                 (syncEffect Demo.oneRequirement
                    (syncEffect Demo.oneRequirement initialWorld)) in
  let again := settle geo [0] (syncEffect Demo.oneRequirement twice) in
  inflight once = [] ∧ inflight twice = []
  ∧ length (shownMarkers once) = 1 ∧ length (shownMarkers twice) = 2
  ∧ length (shownCircles once) = 1 ∧ length (shownCircles twice) = 2
  ∧ map markerPass (attachedMarkers twice) = [0; 1]
  ∧ ¬ (shownMarkers twice ≡ₚ shownMarkers once)
  ∧ inflight again = [] ∧ length (shownMarkers again) = 1
  ∧ ¬ (shownMarkers again ≡ₚ shownMarkers twice).
Proof.
  cbv zeta. repeat split; try reflexivity.
  - intros Hperm. apply Permutation_length in Hperm.
    revert Hperm. vm_compute. discriminate.
  - intros Hperm. apply Permutation_length in Hperm.
    revert Hperm. vm_compute. discriminate.
Qed.

(** C7, amended.  A run of the effect body in any reachable world leaves
    no marker and no circle on the map and empties both holding lists.
    Provided no geocode request is in flight when a pass starts, and none
    is in flight when the pass is run again with the same inputs and the
    same geocoder answers (each run starts only after every callback of
    the runs before it has been delivered), then once the second run has
    settled the map shows the same markers and the same circles as after
    the first, up to their order: nothing accumulates. *)
Theorem settled_resync_is_idempotent
    (evs evs0 : list Event) (inp : Inputs) (geo : Geocoder)
    (order1 order2 : list nat) :
  ready inp = true →
  let w0 := run evs0 initialWorld in
  inflight w0 = [] →
  let w1 := settle geo order1 (syncEffect inp w0) in
  inflight w1 = [] →
  let w2 := settle geo order2 (syncEffect inp w1) in
  inflight w2 = [] →
  (let w := syncEffect inp (run evs initialWorld) in
   attachedMarkers w = [] ∧ attachedCircles w = []
   ∧ markersRef w = [] ∧ circlesRef w = [])
  ∧ shownMarkers w2 ≡ₚ shownMarkers w1
  ∧ shownCircles w2 ≡ₚ shownCircles w1
  ∧ length (attachedMarkers w2) = length (attachedMarkers w1)
  ∧ length (attachedCircles w2) = length (attachedCircles w1).
Proof.
  intros Hready w0 Hq0 w1 Hq1 w2 Hq2.
  pose proof (Inv_reachable evs0) as HI0. fold w0 in HI0.
  assert (HI1 : Inv w1) by (by apply Inv_settle, Inv_syncEffect).
  destruct (settled_pass_shows inp geo order1 w0 HI0 Hready Hq0 Hq1)
    as [Hm1 Hc1].
  destruct (settled_pass_shows inp geo order2 w1 HI1 Hready Hq1 Hq2)
    as [Hm2 Hc2].
  fold w1 in Hm1, Hc1. fold w2 in Hm2, Hc2.
  assert (Hm : shownMarkers w2 ≡ₚ shownMarkers w1) by (by rewrite Hm1, Hm2).
  assert (Hc : shownCircles w2 ≡ₚ shownCircles w1) by (by rewrite Hc1, Hc2).
  split; [|split; [|split; [|split]]]; try done.
  - apply syncEffect_clears; [apply Inv_reachable | done].
  - apply Permutation_length in Hm. unfold shownMarkers in Hm.
    by rewrite !length_map in Hm.
  - apply Permutation_length in Hc. unfold shownCircles in Hc.
    by rewrite !length_map in Hc.
Qed.

Lemma settled_resync_is_idempotent_witness :
  let geo := DemoService.everywhere in
  let w1 := settle geo [0] (syncEffect Demo.oneRequirement initialWorld) in
  let w2 := settle geo [0] (syncEffect Demo.oneRequirement w1) in
  shownMarkers w2 ≡ₚ shownMarkers w1 ∧ shownCircles w2 ≡ₚ shownCircles w1.
Proof.
  destruct (settled_resync_is_idempotent [] [] Demo.oneRequirement
              DemoService.everywhere [0] [0]
              eq_refl eq_refl eq_refl eq_refl)
    as (_ & Hm & Hc & _).
  split; [exact Hm | exact Hc].
Defined.

(** * Further properties of the synchronisation effect *)

Lemma found_app sel evs1 evs2 w :
  found sel (evs1 ++ evs2) w = found sel evs1 w ++ found sel evs2 (run evs1 w).
Proof.
  revert w. induction evs1 as [|e evs1 IH]; intros w; [done|].
  rewrite <- app_comm_cons. cbn [found]. by rewrite IH, run_cons, app_assoc.
Qed.

Lemma boundsOf_step p e w :
  Inv w → boundsOf p (step e w) = boundsOf p w ++ foundAt (ofPass p) e w.
Proof.
  intros HI. destruct e as [inp|i results status]; simpl.
  - rewrite app_nil_r. destruct (ready inp) eqn:Hready;
      [|by rewrite syncEffect_not_ready].
    rewrite (syncEffect_ready _ _ Hready). unfold boundsOf. simpl.
    destruct (decide (p < length (passes w))) as [Hlt|Hge].
    + by rewrite lookup_app_l.
    + rewrite lookup_app_r, (lookup_ge_None_2 (passes w)) by lia.
      by destruct (p - length (passes w)) as [|[|n]].
  - destruct (inflight w !! i) as [cb|] eqn:Hcb;
      [|by rewrite answer_none, app_nil_r].
    unfold boundsOf.
    rewrite (answer_passes _ _ _ _ _ Hcb), passesAfter_alter.
    unfold ofPass.
    destruct (Nat.eqb_spec (callbackPass cb) p) as [<-|Hne].
    + rewrite list_lookup_alter_eq.
      destruct (passes w !! callbackPass cb) as [env|] eqn:Henv; simpl.
      * rewrite envAfter_bounds.
        by destruct (firstResult results status) as [[r|]|err].
      * assert (callbackPass cb < length (passes w)) as Hlt.
        { apply (inv_inflight _ HI). by eapply list_elem_of_lookup_2. }
        apply lookup_ge_None in Henv. lia.
    + rewrite list_lookup_alter_ne by done. by rewrite app_nil_r.
Qed.

Lemma boundsOf_run p evs w :
  Inv w → boundsOf p (run evs w) = boundsOf p w ++ found (ofPass p) evs w.
Proof.
  revert w. induction evs as [|e evs IH]; intros w HI;
    [by rewrite app_nil_r|].
  cbn [found]. rewrite run_cons, IH, boundsOf_step by (by try apply Inv_step).
  by rewrite app_assoc.
Qed.

Lemma FitCallsFaithful_step e w :
  Inv w → FitCallsFaithful w → FitCallsFaithful (step e w).
Proof.
  intros HI HF. destruct e as [inp|i results status]; simpl.
  - destruct (ready inp) eqn:Hready; [|by rewrite syncEffect_not_ready].
    rewrite (syncEffect_ready _ _ Hready). intros p b. simpl. intros Hin.
    destruct (HF p b Hin) as (env & Hp & Hrest).
    exists env. split; [by apply lookup_app_l_Some|done].
  - destruct (inflight w !! i) as [cb|] eqn:Hcb; [|by rewrite answer_none].
    intros p b.
    rewrite (answer_fitBoundsCalls _ _ _ _ _ Hcb),
      (answer_passes _ _ _ _ _ Hcb), passesAfter_alter.
    pose proof (inflightOf_answer w i cb results status (callbackPass cb) Hcb)
      as Hfl. rewrite decide_True in Hfl by done.
    intros [Hold|Hnew]%elem_of_app.
    + destruct (HF p b Hold) as (env & Hp & Hb & Hcount & Hne).
      destruct (decide (callbackPass cb = p)) as [Heq|Hneq].
      * subst p. pose proof (inv_count _ HI _ _ Hp). lia.
      * exists env. by rewrite list_lookup_alter_ne.
    + assert (Hnow : (p, b) ∈ fitNow (callbackPass cb)
                       (alter (envAfter (firstResult results status))
                          (callbackPass cb) (passes w))).
      { rewrite <- passesAfter_alter.
        by destruct (firstResult results status) as [[r|]|err];
          [| |apply elem_of_nil in Hnew]. }
      unfold fitNow in Hnow.
      destruct (alter _ _ _ !! callbackPass cb) as [env'|] eqn:Henv';
        [|by apply elem_of_nil in Hnow].
      destruct (fitDecision env') eqn:Hdec; [|by apply elem_of_nil in Hnow].
      apply list_elem_of_singleton in Hnow. simplify_eq.
      exists env'. split; [done|]. split; [done|].
      unfold fitDecision in Hdec. apply andb_true_iff in Hdec as [H1 H2].
      split; [by apply Nat.eqb_eq|].
      by destruct (bounds env').
Qed.

Lemma FitCallsFaithful_reachable evs : FitCallsFaithful (run evs initialWorld).
Proof.
  induction evs as [|e evs IH] using rev_ind.
  - by intros p b ?%elem_of_nil.
  - rewrite run_snoc. apply FitCallsFaithful_step; [apply Inv_reachable|done].
Qed.

(** X1.  Whenever [fitBounds] was called for a pass, the region it was
    given holds exactly the positions found by the successful geocode
    callbacks of that pass, in their order of arrival; it is not empty, the
    pass was complete, and the region is still the bounds of the pass. *)
Theorem fitBounds_region_is_every_found_position
    (evs : list Event) (p : nat) (b : list LatLng) :
  (p, b) ∈ fitBoundsCalls (run evs initialWorld) →
  b = found (ofPass p) evs initialWorld
  ∧ b ≠ []
  ∧ ∃ env, passes (run evs initialWorld) !! p = Some env
           ∧ bounds env = b ∧ markerCount env = totalRecords env.
Proof.
  intros Hin.
  destruct (FitCallsFaithful_reachable evs p b Hin)
    as (env & Hp & Hb & Hcount & Hne).
  pose proof (boundsOf_run p evs initialWorld Inv_initial) as Hrun.
  unfold boundsOf in Hrun. rewrite Hp in Hrun. simpl in Hrun.
  split; [congruence|]. split; [done|]. eauto.
Qed.

Lemma fitBounds_region_is_every_found_position_witness :
  let b := [Demo.position 3 4; Demo.position 1 2] in
  b = found (ofPass 0) Demo.twoAndOneRun initialWorld ∧ b ≠ [].
Proof.
  destruct (fitBounds_region_is_every_found_position Demo.twoAndOneRun 0
              [Demo.position 3 4; Demo.position 1 2])
    as (Hb & Hne & _).
  { vm_compute. left. }
  split; [exact Hb | exact Hne].
Defined.

Lemma accounted_step p e w :
  Inv w → p < length (passes w) →
  accounted p (step e w) + thrownAt (ofPass p) e w = accounted p w.
Proof.
  intros HI Hp. destruct e as [inp|i results status]; simpl.
  - rewrite Nat.add_0_r. destruct (ready inp) eqn:Hready;
      [|by rewrite syncEffect_not_ready].
    rewrite (syncEffect_ready _ _ Hready). unfold accounted, inflightOf. simpl.
    rewrite lookup_app_l by done.
    destruct (passes w !! p) as [env|]; [|done].
    rewrite list.filter_app, length_app.
    rewrite (filter_length_all_not _ (requestsOf _)); [lia|].
    intros cb Hcb%outcomes_pass. lia.
  - destruct (inflight w !! i) as [cb|] eqn:Hcb;
      [|by rewrite answer_none, Nat.add_0_r].
    unfold accounted.
    rewrite (answer_passes _ _ _ _ _ Hcb), passesAfter_alter.
    pose proof (inflightOf_answer w i cb results status p Hcb) as Hfl.
    unfold ofPass.
    destruct (Nat.eqb_spec (callbackPass cb) p) as [Heq|Hne].
    + rewrite decide_True in Hfl by done. subst p.
      rewrite list_lookup_alter_eq.
      destruct (passes w !! callbackPass cb) as [env|] eqn:Henv; simpl.
      * rewrite envAfter_count.
        destruct (firstResult results status) as [[r|]|err]; lia.
      * apply lookup_ge_None in Henv. lia.
    + rewrite decide_False in Hfl by done.
      rewrite list_lookup_alter_ne by done.
      destruct (passes w !! p); lia.
Qed.

Lemma accounted_run p evs w :
  Inv w → p < length (passes w) →
  accounted p (run evs w) + thrown (ofPass p) evs w = accounted p w.
Proof.
  revert w. induction evs as [|e evs IH]; intros w HI Hp; [simpl; lia|].
  cbn [thrown]. rewrite run_cons.
  pose proof (accounted_step p e w HI Hp).
  pose proof (step_passes_length e w).
  specialize (IH (step e w) (Inv_step _ _ HI)). lia.
Qed.

(** X2.  Every record of a pass is either counted, still awaited, or lost
    to a callback that threw: at any moment after the pass started, its
    counter plus its requests in flight plus its callbacks that threw is
    its expected count.  So [fitBounds] has been called for the pass
    exactly when none of its requests is in flight, none of its callbacks
    threw and one of its geocodes succeeded. *)
Theorem pass_completes_when_every_request_is_answered
    (evs0 : list Event) (inp : Inputs) (evs : list Event) :
  ready inp = true →
  let w0 := run evs0 initialWorld in
  let p := length (passes w0) in
  let w1 := syncEffect inp w0 in
  let w := run evs w1 in
  ∃ env, passes w !! p = Some env
         ∧ markerCount env + inflightOf p w + thrown (ofPass p) evs w1
           = totalRecords env
         ∧ (fitCount p w = 1
            ↔ inflightOf p w = 0 ∧ thrown (ofPass p) evs w1 = 0
              ∧ 0 < successes (ofPass p) evs w1).
Proof.
  intros Hready w0 p w1 w.
  pose proof (Inv_reachable evs0) as HI0. fold w0 in HI0.
  destruct (syncEffect_new_pass inp w0 HI0 Hready)
    as (Hnew & Hfl & _ & _ & Hlt).
  fold p w1 in Hnew, Hfl, Hlt.
  assert (HI1 : Inv w1) by (by apply Inv_syncEffect).
  assert (HI : Inv w) by (by apply Inv_run).
  destruct (run_pass_persists p evs w1 _ Hnew) as (env & Henv & Htot).
  fold w in Henv. simpl in Htot.
  pose proof (accounted_run p evs w1 HI1 Hlt) as Hacc. fold w in Hacc.
  unfold accounted in Hacc. rewrite Henv, Hnew in Hacc. simpl in Hacc.
  rewrite Hfl in Hacc.
  pose proof (skipped_requests_length (outcomes inp p)) as Hsk.
  pose proof (outcomes_length inp p) as Hlen.
  pose proof (boundsLength_run p evs w1 HI1) as Hb. fold w in Hb.
  unfold boundsLength in Hb. rewrite Henv, Hnew in Hb. simpl in Hb.
  pose proof (inv_fit _ HI _ _ Henv) as Hfit. unfold fitDecision in Hfit.
  exists env. split; [done|]. split; [lia|].
  rewrite Hfit.
  destruct (Nat.eqb_spec (markerCount env) (totalRecords env)) as [Heq|Hne];
    destruct (bounds env) as [|x b]; simpl in *; split; try done; try lia.
Qed.

Lemma pass_completes_when_every_request_is_answered_witness :
  let w := run Demo.twoAndOneRun initialWorld in
  ∃ env, passes w !! 0 = Some env ∧ fitCount 0 w = 1.
Proof.
  destruct (pass_completes_when_every_request_is_answered [] Demo.twoAndOne
              [GeocoderAnswers 1 (Demo.found 3 4) "OK";
               GeocoderAnswers 0 (Demo.found 1 2) "OK"] eq_refl)
    as (env & Hp & _ & Hfit).
  exists env. vm_compute in Hp, Hfit. vm_compute.
  split; [exact Hp|]. apply Hfit. repeat split; lia.
Defined.

(** ** The holding lists *)

Lemma Held_step e w : Inv w → Held w → Held (step e w).
Proof.
  intros HI (Hnm & Hnc & Hm & Hc). destruct e as [inp|i results status]; simpl.
  - destruct (ready inp) eqn:Hready; [|by rewrite syncEffect_not_ready].
    rewrite (syncEffect_ready _ _ Hready). unfold Held. simpl.
    split; [constructor|]. split; [constructor|]. split.
    + intros h. split; [by intros ?%elem_of_nil|].
      intros (m & Hh & Hon).
      pose proof (detachMarkers_attached _ _ (inv_markers _ HI) m
                    (list_elem_of_lookup_2 _ _ _ Hh)). congruence.
    + intros h. split; [by intros ?%elem_of_nil|].
      intros (c & Hh & Hon).
      pose proof (detachCircles_attached _ _ (inv_circles _ HI) c
                    (list_elem_of_lookup_2 _ _ _ Hh)). congruence.
  - destruct (inflight w !! i) as [cb|] eqn:Hcb; [|by rewrite answer_none].
    assert (Hmap : mapInstance w = true).
    { apply (inv_map _ HI).
      pose proof (inv_inflight _ HI cb (list_elem_of_lookup_2 _ _ _ Hcb)) as Hlt.
      intros Hnil. rewrite Hnil in Hlt. simpl in Hlt. lia. }
    assert (Hfresh_m : length (markerHeap w) ∉ markersRef w).
    { intros (m & Hh%lookup_lt_Some & _)%Hm. lia. }
    assert (Hfresh_c : length (circleHeap w) ∉ circlesRef w).
    { intros (c & Hh%lookup_lt_Some & _)%Hc. lia. }
    unfold Held.
    rewrite (answer_markersRef _ _ _ _ _ Hcb), (answer_circlesRef _ _ _ _ _ Hcb),
      (answer_markerHeap _ _ _ _ _ Hcb), (answer_circleHeap _ _ _ _ _ Hcb), Hmap.
    destruct (firstResult results status) as [[r|]|err];
      rewrite ?app_nil_r; try done.
    split; [|split; [|split]].
    + apply list.NoDup_app. split; [done|]. split; [|apply NoDup_singleton].
      intros h Hh ->%list_elem_of_singleton. done.
    + destruct cb; simpl; rewrite ?app_nil_r; [|done].
      apply list.NoDup_app. split; [done|]. split; [|apply NoDup_singleton].
      intros h Hh ->%list_elem_of_singleton. done.
    + intros h. rewrite elem_of_app, list_elem_of_singleton, Hm. split.
      * intros [(m & Hh & Hon)| ->].
        -- exists m. split; [by apply lookup_app_l_Some|done].
        -- eexists. split; [by apply list_lookup_middle|]. by destruct cb.
      * intros (m & [Hh|[Hge Hh]]%lookup_app_Some & Hon); [left; eauto|].
        right. destruct (h - length (markerHeap w)) as [|n] eqn:Hd; [lia|done].
    + destruct cb as [p a s|p a ? ? ? ? ? ?]; simpl; rewrite ?app_nil_r;
        [|exact Hc].
      intros h. rewrite elem_of_app, list_elem_of_singleton, Hc. split.
      * intros [(c & Hh & Hon)| ->].
        -- exists c. split; [by apply lookup_app_l_Some|done].
        -- eexists. split; [by apply list_lookup_middle|]. done.
      * intros (c & [Hh|[Hge Hh]]%lookup_app_Some & Hon); [left; eauto|].
        right. destruct (h - length (circleHeap w)) as [|n] eqn:Hd; [lia|done].
Qed.

(** X3.  In every reachable world the holding lists name exactly the
    overlays on the map: a marker is on the map if and only if its handle
    is in [markersRef.current], a circle if and only if its handle is in
    [circlesRef.current], and no handle is held twice. *)
Theorem holding_lists_name_the_overlays_on_the_map (evs : list Event) :
  Held (run evs initialWorld).
Proof.
  induction evs as [|e evs IH] using rev_ind.
  - unfold Held. simpl. split; [constructor|]. split; [constructor|].
    split; intros h; (split; [by intros ?%elem_of_nil|]);
      by intros (x & Hx & _).
  - rewrite run_snoc. apply Held_step; [apply Inv_reachable|done].
Qed.

(** ** Passes and the map instance *)

Lemma readyRuns_snoc evs e :
  readyRuns (evs ++ [e])
  = readyRuns evs + match e with
                    | EffectRuns inp => if ready inp then 1 else 0
                    | GeocoderAnswers _ _ _ => 0
                    end.
Proof.
  unfold readyRuns. induction evs as [|e' evs IH]; simpl.
  - destruct e as [inp|]; [destruct (ready inp)|]; simpl; lia.
  - rewrite IH. lia.
Qed.

(** X4.  A pass is started by every run of the effect body that gets past
    the guard and by nothing else, and the map instance exists exactly
    from the first such run on. *)
Theorem one_pass_per_ready_run (evs : list Event) :
  length (passes (run evs initialWorld)) = readyRuns evs
  ∧ (mapInstance (run evs initialWorld) = true ↔ 0 < readyRuns evs).
Proof.
  induction evs as [|e evs [IHp IHm]] using rev_ind.
  - split; [done|]. split; [done|]. unfold readyRuns. simpl. lia.
  - rewrite run_snoc, readyRuns_snoc.
    destruct e as [inp|i results status]; simpl.
    + destruct (ready inp) eqn:Hready.
      * rewrite (syncEffect_ready _ _ Hready). simpl. rewrite length_app.
        simpl. split; [lia|]. split; [lia|done].
      * rewrite syncEffect_not_ready by done. rewrite Nat.add_0_r. done.
    + rewrite Nat.add_0_r.
      destruct (inflight (run evs initialWorld) !! i) as [cb|] eqn:Hcb;
        [|by rewrite answer_none].
      rewrite (answer_passes _ _ _ _ _ Hcb), passesAfter_alter, length_alter.
      by rewrite (answer_mapInstance _ _ _ _ _ Hcb).
Qed.

(** ** Addresses and white space *)

Lemma allWhiteSpace_rev_app s1 s2 :
  allWhiteSpace (String.rev_app s1 s2) = allWhiteSpace s1 && allWhiteSpace s2.
Proof.
  revert s2. induction s1 as [|a s1 IH]; intros s2; simpl; [done|].
  rewrite IH. simpl. destruct (isWhiteSpace a), (allWhiteSpace s1); done.
Qed.

Lemma allWhiteSpace_rev s : allWhiteSpace (String.rev s) = allWhiteSpace s.
Proof.
  unfold String.rev. rewrite allWhiteSpace_rev_app. simpl.
  by rewrite andb_true_r.
Qed.

Lemma allWhiteSpace_trimStart s :
  allWhiteSpace (trimStart s) = allWhiteSpace s.
Proof.
  induction s as [|a s IH]; simpl; [done|].
  destruct (isWhiteSpace a) eqn:Ha; simpl; [done|]. by rewrite Ha.
Qed.

Lemma trimStart_empty s :
  isEmptyString (trimStart s) = allWhiteSpace s.
Proof.
  induction s as [|a s IH]; simpl; [done|].
  destruct (isWhiteSpace a); simpl; done.
Qed.

Lemma rev_app_empty s1 s2 :
  isEmptyString (String.rev_app s1 s2) = isEmptyString s1 && isEmptyString s2.
Proof.
  revert s2. induction s1 as [|a s1 IH]; intros s2; simpl; [done|].
  rewrite IH. simpl. by rewrite andb_false_r.
Qed.

Lemma trim_empty s : isEmptyString (trim s) = allWhiteSpace s.
Proof.
  unfold trim, String.rev at 1. rewrite rev_app_empty. simpl.
  rewrite andb_true_r, trimStart_empty, allWhiteSpace_rev.
  apply allWhiteSpace_trimStart.
Qed.

Lemma append_cons a s t : String a s +:+ t = String a (s +:+ t).
Proof. reflexivity. Qed.

Lemma append_nil_r s : s +:+ "" = s.
Proof.
  induction s as [|a s IH]; [done|]. by rewrite append_cons, IH.
Qed.

Lemma append_assoc s1 s2 s3 : (s1 +:+ s2) +:+ s3 = s1 +:+ (s2 +:+ s3).
Proof.
  induction s1 as [|a s1 IH]; [done|]. by rewrite !append_cons, IH.
Qed.

Lemma rev_app_append s1 s2 : String.rev_app s1 s2 = String.rev s1 +:+ s2.
Proof.
  revert s2. induction s1 as [|a s1 IH]; intros s2; [done|].
  unfold String.rev. cbn [String.rev_app].
  rewrite (IH (String a s2)), (IH (String a "")).
  by rewrite append_assoc.
Qed.

Lemma rev_cons a s : String.rev (String a s) = String.rev s +:+ String a "".
Proof. unfold String.rev at 1. simpl. apply rev_app_append. Qed.

Lemma rev_append s1 s2 :
  String.rev (s1 +:+ s2) = String.rev s2 +:+ String.rev s1.
Proof.
  induction s1 as [|a s1 IH].
  - change ("" +:+ s2) with s2. change (String.rev "") with "".
    by rewrite append_nil_r.
  - rewrite append_cons. by rewrite !rev_cons, IH, append_assoc.
Qed.

Lemma rev_involutive s : String.rev (String.rev s) = s.
Proof.
  induction s as [|a s IH]; [done|].
  by rewrite rev_cons, rev_append, IH.
Qed.

Lemma isAsciiSpace_isWhiteSpace a : isAsciiSpace a = isWhiteSpace a.
Proof. destruct a as [[] [] [] [] [] [] [] []]; reflexivity. Qed.

Lemma onlyAsciiSpaces_allWhiteSpace s : onlyAsciiSpaces s = allWhiteSpace s.
Proof.
  induction s as [|a s IH]; simpl; [done|].
  by rewrite isAsciiSpace_isWhiteSpace, IH.
Qed.

Lemma allWhiteSpace_append s1 s2 :
  allWhiteSpace (s1 +:+ s2) = allWhiteSpace s1 && allWhiteSpace s2.
Proof.
  induction s1 as [|a s1 IH]; [done|].
  rewrite append_cons. cbn [allWhiteSpace]. by rewrite IH, andb_assoc.
Qed.

Lemma trimStart_spaces pre s :
  allWhiteSpace pre = true → trimStart (pre +:+ s) = trimStart s.
Proof.
  induction pre as [|a pre IH]; [done|].
  rewrite append_cons. cbn [allWhiteSpace trimStart].
  intros [Ha Hpre]%andb_true_iff. rewrite Ha. by apply IH.
Qed.

(** Trimming a string that is white space, a core, white space, where the
    core begins and ends with a character that is not white space, leaves
    the core. *)
Lemma trim_core pre post a back front z :
  allWhiteSpace pre = true → allWhiteSpace post = true →
  isWhiteSpace a = false → isWhiteSpace z = false →
  String a back = front +:+ String z "" →
  trim (pre +:+ String a back +:+ post) = String a back.
Proof.
  intros Hpre Hpost Ha Hz Hcore. unfold trim.
  rewrite (trimStart_spaces pre) by done.
  change (String a back +:+ post) with (String a (back +:+ post)).
  cbn [trimStart]. rewrite Ha.
  change (String a (back +:+ post)) with (String a back +:+ post).
  rewrite rev_append, Hcore, rev_append.
  change (String.rev (String z "")) with (String z "").
  rewrite (trimStart_spaces (String.rev post))
    by (by rewrite allWhiteSpace_rev).
  change (String z "" +:+ String.rev front) with (String z (String.rev front)).
  cbn [trimStart]. rewrite Hz.
  change (String z (String.rev front))
    with (String z "" +:+ String.rev front).
  by rewrite rev_append, rev_involutive.
Qed.

(** X5.  The address of a Requirement is its cell's string with the white
    space at both ends removed.  For a cell that reads: ASCII white space
    (tab, line feed, vertical tab, form feed, carriage return, space), a
    core, ASCII white space.  If the core is empty the address counts as
    missing: no geocode request, the warning of the missing address with
    the 1-based position, one tick.  If the core begins and ends with an
    ASCII character that is not white space, exactly the core is sent to
    the geocoder, and nothing is counted or logged yet. *)
Theorem requirement_address_is_trimmed
    (props : CustomProperties) (p index : nat) (record : AirtableRecord)
    (w : World) (env : PassEnv) (fld : Field) (pre core post : string) :
  requirementAddressField props = Some fld →
  getCellValue record (id fld) = Ret (Str (pre +:+ core +:+ post)) →
  passes w !! p = Some env →
  onlyAsciiSpaces pre = true →
  onlyAsciiSpaces post = true →
  let w' := processRequirement props p index record w in
  (core = "" →
     inflight w' = inflight w
     ∧ console w' = console w ++ [NoAddressFoundForRequirement (index + 1)]
     ∧ passes w' !! p = Some (tick env))
  ∧ (∀ a back front z,
       core = String a back → core = front +:+ String z "" →
       isAsciiInk a = true → isAsciiInk z = true →
       inflight w'
       = inflight w ++ [RequirementCallback p (Str core) (name record)]
       ∧ console w' = console w
       ∧ passes w' = passes w).
Proof.
  intros Hfld Hcell Hp Hpre Hpost w'.
  rewrite onlyAsciiSpaces_allWhiteSpace in Hpre, Hpost.
  set (s := pre +:+ core +:+ post) in *.
  assert (Hread : readRequirement props record
                  = Ret (if isEmptyString s then Null else Str (trim s))).
  { unfold readRequirement, readCell. rewrite Hfld, Hcell. simpl.
    unfold requirementAddress. simpl. by destruct (isEmptyString s). }
  pose proof (trim_empty s) as Htrim.
  assert (Htruthy : truthy (if isEmptyString s then Null else Str (trim s))
                    = negb (allWhiteSpace s)).
  { destruct s as [|c s']; [done|]. simpl isEmptyString. cbn [truthy].
    by rewrite Htrim. }
  subst w'. unfold processRequirement. rewrite Hread, Htruthy.
  split.
  - intros ->.
    assert (Hws : allWhiteSpace s = true).
    { subst s. change ("" +:+ post) with post.
      by rewrite allWhiteSpace_append, Hpre, Hpost. }
    rewrite Hws. simpl. rewrite checkAndFitBounds_unfold. simpl.
    by rewrite list_lookup_alter_eq, Hp.
  - intros a back front z Hcore Hlast [_ Ha]%andb_true_iff
      [_ Hz]%andb_true_iff.
    rewrite isAsciiSpace_isWhiteSpace in Ha, Hz.
    apply negb_true_iff in Ha. apply negb_true_iff in Hz.
    assert (Hcore' : trim s = core).
    { subst s. rewrite Hcore. apply (trim_core pre post a back front z);
        try done. by rewrite <- Hcore. }
    assert (Hws : allWhiteSpace s = false).
    { rewrite <- Htrim, Hcore', Hcore. done. }
    rewrite Hws. simpl.
    destruct s as [|c s']; [done|]. simpl. by rewrite Hcore'.
Qed.

Lemma requirement_address_is_trimmed_witness :
  let w := setPasses [newPass Demo.oneRequirement] initialWorld in
  inflight (processRequirement Demo.keys 0 0
              (Demo.requirement "R1" (Str "  12 Main St ")) w)
  = [RequirementCallback 0 (Str "12 Main St") "R1"].
Proof.
  destruct (requirement_address_is_trimmed Demo.keys 0 0
              (Demo.requirement "R1" (Str "  12 Main St "))
              (setPasses [newPass Demo.oneRequirement] initialWorld)
              (newPass Demo.oneRequirement) {| id := "fldAddress" |}
              "  " "12 Main St" " " eq_refl eq_refl eq_refl eq_refl eq_refl)
    as [_ H].
  destruct (H "1"%char "2 Main St" "12 Main S" "t"%char
              eq_refl eq_refl eq_refl eq_refl) as (Hin & _).
  vm_compute in Hin. vm_compute. exact Hin.
Defined.

(** X6.  The address of a Listing is its cell read as a string, used as it
    is: whenever the reads of the record succeed and the string is not
    empty, white space included, exactly one geocode request is queued for
    it, with that very string as address, and nothing is counted yet. *)
Theorem listing_address_is_sent_as_read
    (props : CustomProperties) (p : nat) (record : AirtableRecord)
    (w : World) (fld : Field) (s : string) (lf : ListingFields) :
  listingAddressField props = Some fld →
  getCellValueAsString record (id fld) = Ret s →
  readListing props record = Ret lf →
  s ≠ "" →
  let w' := processListing props p record w in
  ∃ cb, inflight w' = inflight w ++ [cb]
        ∧ callbackAddress cb = Str s ∧ callbackPass cb = p
        ∧ isRequirementCallback cb = false
        ∧ passes w' = passes w ∧ console w' = console w.
Proof.
  intros Hfld Hcell Hread Hs w'.
  pose proof (readListing_address _ _ _ Hread) as Haddr.
  unfold readCellAsString in Haddr. rewrite Hfld, Hcell in Haddr.
  simpl in Haddr. injection Haddr as Haddr.
  subst w'. unfold processListing. rewrite Hread, <- Haddr.
  destruct s as [|a s]; [done|]. simpl.
  eexists. split; [reflexivity|]. done.
Qed.

Lemma listing_address_is_sent_as_read_witness :
  ∃ cb, inflight (processListing Demo.keys 0 (Demo.listing "  ") initialWorld)
        = [cb]
        ∧ callbackAddress cb = Str "  ".
Proof.
  destruct (listing_address_is_sent_as_read Demo.keys 0 (Demo.listing "  ")
              initialWorld {| id := "fldListingAddress" |} "  "
              {| lfAddress := Str "  "; lfUrl := Null; lfDistance := Null;
                 lfDriveTime := Null; lfImageUrl := Null;
                 lfPropertyType := Null; lfRequirementName := Str "" |}
              eq_refl eq_refl eq_refl ltac:(discriminate))
    as (cb & Hin & Ha & _).
  exists cb. split; [exact Hin | exact Ha].
Defined.

(** * The component around the effect *)

(** ** Rendering *)

Lemma render_map_iff key requirements listings props error loaded :
  render key requirements listings props error loaded = MapContainer
  ↔ isSome requirements = true ∧ isSome listings = true
    ∧ isSome (requirementAddressField props) = true
    ∧ isSome (listingAddressField props) = true
    ∧ errorSet error = false ∧ loaded = true.
Proof.
  unfold render, errorSet.
  destruct (isSome requirements), (isSome listings),
    (isSome (requirementAddressField props)),
    (isSome (listingAddressField props)); simpl;
    try (split; [done | intros (?&?&?&?&?&?); done]).
  destruct error as [msg|]; [destruct (isEmptyString msg)|];
    destruct loaded; simpl; split; try done;
    try (intros (?&?&?&?&?&?); done).
Qed.

(** X8.  The synchronisation effect gets past its guard exactly when the
    map container is what the component rendered, that is when both
    tables and both address roles are set, no error is recorded and the
    Maps script is loaded.  With any other screen a run of the effect body
    changes nothing. *)
Theorem effect_is_ready_exactly_under_the_map
    (key : string) (requirements listings : option Table)
    (props : CustomProperties) (error : option string) (loaded : bool)
    (requirementRows listingRows : option (list AirtableRecord)) :
  let screen := render key requirements listings props error loaded in
  let inp := inputsAfterRender key requirements listings props error loaded
               requirementRows listingRows in
  (ready inp = true ↔ screen = MapContainer)
  ∧ (screen = MapContainer
     ↔ isSome requirements = true ∧ isSome listings = true
       ∧ isSome (requirementAddressField props) = true
       ∧ isSome (listingAddressField props) = true
       ∧ errorSet error = false ∧ loaded = true)
  ∧ (screen ≠ MapContainer → ∀ w, syncEffect inp w = w).
Proof.
  intros screen inp.
  assert (Hready : ready inp = true ↔ screen = MapContainer).
  { subst inp screen. unfold ready, inputsAfterRender. simpl.
    split.
    - intros H. destruct (render _ _ _ _ _ _); try done.
      all: by rewrite !andb_false_r, ?andb_false_l in H.
    - intros H. rewrite H. simpl.
      apply render_map_iff in H as (-> & -> & _ & _ & _ & ->). done. }
  split; [done|]. split; [apply render_map_iff|].
  intros Hscreen w. apply syncEffect_not_ready.
  destruct (ready inp); [|done]. destruct Hscreen. by apply Hready.
Qed.

Lemma elem_of_if_set (b : bool) (a x : string) :
  x ∈ (if b then [a] else []) ↔ b = true ∧ x = a.
Proof.
  destruct b; [rewrite list_elem_of_singleton | rewrite elem_of_nil];
    intuition congruence.
Qed.

Lemma elem_of_if_unset (b : bool) (a x : string) :
  x ∈ (if b then [] else [a]) ↔ b = false ∧ x = a.
Proof.
  destruct b; [rewrite elem_of_nil | rewrite list_elem_of_singleton];
    intuition congruence.
Qed.

Lemma elem_of_missingItems key requirements listings props x :
  x ∈ missingItems key requirements listings props
  ↔ (isEmptyString key = true ∧ x = "Google Maps API Key")
    ∨ (isSome requirements = false ∧ x = "Requirements Table")
    ∨ (isSome listings = false ∧ x = "Listings Table")
    ∨ (isSome (requirementAddressField props) = false
       ∧ x = "Requirement Address Field")
    ∨ (isSome (listingAddressField props) = false
       ∧ x = "Listing Address Field").
Proof.
  unfold missingItems.
  by rewrite !elem_of_app, elem_of_if_set, !elem_of_if_unset.
Qed.

Lemma isSome_false {A} (o : option A) : isSome o = false ↔ o = None.
Proof. by destruct o. Qed.

Lemma isEmptyString_true s : isEmptyString s = true ↔ s = "".
Proof. by destruct s. Qed.

(** X9.  The configuration screen is shown exactly when a table or an
    address role is unset, whatever the error and loading states.  Its
    list then names each unset table and address role, names the API key
    if and only if the key is empty, and names nothing else; an empty key
    alone does not bring up this screen. *)
Theorem configuration_screen_lists_what_is_unset
    (key : string) (requirements listings : option Table)
    (props : CustomProperties) (error : option string) (loaded : bool) :
  let screen := render key requirements listings props error loaded in
  let items := missingItems key requirements listings props in
  (screen = ConfigurationRequired items
   ↔ requirements = None ∨ listings = None
     ∨ requirementAddressField props = None
     ∨ listingAddressField props = None)
  ∧ (∀ l, screen = ConfigurationRequired l → l = items)
  ∧ ("Google Maps API Key" ∈ items ↔ key = "")
  ∧ ("Requirements Table" ∈ items ↔ requirements = None)
  ∧ ("Listings Table" ∈ items ↔ listings = None)
  ∧ ("Requirement Address Field" ∈ items
     ↔ requirementAddressField props = None)
  ∧ ("Listing Address Field" ∈ items ↔ listingAddressField props = None)
  ∧ (∀ x, x ∈ items →
       x ∈ ["Google Maps API Key"; "Requirements Table"; "Listings Table";
            "Requirement Address Field"; "Listing Address Field"]).
Proof.
  intros screen items. subst screen items.
  split; [|split].
  - unfold render. rewrite <- !isSome_false.
    destruct (isSome requirements), (isSome listings),
      (isSome (requirementAddressField props)),
      (isSome (listingAddressField props)); simpl;
      try (split; [intros _; tauto | done]).
    split; [|intuition congruence].
    destruct error as [msg|]; [destruct (isEmptyString msg)|];
      destruct loaded; done.
  - intros l. unfold render.
    destruct (_ || _); [by intros [= <-]|].
    destruct error as [msg|]; [destruct (isEmptyString msg)|];
      destruct loaded; done.
  - rewrite !elem_of_missingItems, <- !isSome_false, <- isEmptyString_true.
    repeat split; try (intuition congruence).
    intros x Hx. apply elem_of_missingItems in Hx.
    rewrite !elem_of_cons. intuition congruence.
Qed.

(** ** Loading the Maps script *)

Lemma loaderRun_snoc evs e s :
  loaderRun (evs ++ [e]) s = loaderStep (loaderRun evs s) e.
Proof. unfold loaderRun. by rewrite foldl_app. Qed.

Lemma loaderStep_error s e :
  errorSet (hookError s.2) = true →
  errorSet (hookError (loaderStep s e).2) = true.
Proof.
  intros Herr. destruct s as [pg h]. destruct e as [key|script|script|]; simpl.
  - unfold loadBody. destruct (googleMaps (runCleanup pg h)); [done|].
    by destruct (isEmptyString key).
  - by destruct (Nat.ltb _ _).
  - by destruct (Nat.ltb _ _).
  - done.
Qed.

(** X10.  No step of the loader clears the error state.  Once an error is
    recorded (no key when the effect ran, or a script that failed to load),
    it stays recorded through every later run of the effect and every
    later load, so the map container is never rendered again, even when
    the Maps script has loaded since. *)
Theorem recorded_error_is_never_cleared
    (evs : list LoaderEvent) (s : Page * Hooks) :
  errorSet (hookError s.2) = true →
  let s' := loaderRun evs s in
  errorSet (hookError s'.2) = true
  ∧ ∀ key requirements listings props,
      render key requirements listings props (hookError s'.2)
        (hookMapsLoaded s'.2) ≠ MapContainer.
Proof.
  intros Herr s'.
  assert (Hkept : errorSet (hookError s'.2) = true).
  { subst s'. induction evs as [|e evs IH] using rev_ind; [done|].
    rewrite loaderRun_snoc. by apply loaderStep_error. }
  split; [done|].
  intros key requirements listings props Hmap.
  apply render_map_iff in Hmap as (_ & _ & _ & _ & Hnone & _). congruence.
Qed.

Lemma recorded_error_is_never_cleared_witness :
  let s' := loaderRun [KeyEffectRuns ""; KeyEffectRuns "k"; ScriptLoaded 0]
              (mounted false) in
  hookMapsLoaded s'.2 = true ∧ errorSet (hookError s'.2) = true.
Proof.
  destruct (recorded_error_is_never_cleared
              [KeyEffectRuns "k"; ScriptLoaded 0]
              (loaderRun [KeyEffectRuns ""] (mounted false)) eq_refl)
    as [Herr _].
  split; [reflexivity | exact Herr].
Defined.

Lemma lastKey_snoc evs e key :
  lastKey (evs ++ [e]) key
  = match e with
    | KeyEffectRuns k => Some k
    | _ => lastKey evs key
    end.
Proof.
  revert key. induction evs as [|e' evs IH]; intros key.
  - by destruct e.
  - simpl. destruct e'; by rewrite IH.
Qed.

(** What the head holds, by the cleanup the last effect run registered. *)
Lemma loader_head_invariant evs already :
  let s := loaderRun evs (mounted already) in
  match hookCleanup s.2 with
  | Some script =>
      script < scriptsCreated s.1
      ∧ ∃ key, lastKey evs None = Some key ∧ key ≠ ""
               ∧ headScripts s.1 = [(script, mapsUrl key)]
  | None => headScripts s.1 = []
  end.
Proof.
  induction evs as [|e evs IH] using rev_ind; [done|].
  cbv zeta in *. rewrite loaderRun_snoc, lastKey_snoc.
  destruct (loaderRun evs (mounted already)) as [pg h].
  destruct e as [key|script|script|]; simpl in *; [| | |exact IH].
  - assert (Hclean : headScripts (runCleanup pg h) = []
                     ∧ scriptsCreated (runCleanup pg h) = scriptsCreated pg).
    { unfold runCleanup. destruct (hookCleanup h) as [script|]; [|done].
      destruct IH as (_ & k & _ & _ & ->). simpl.
      rewrite filter_cons, decide_False by (simpl; tauto). done. }
    destruct Hclean as [Hhead Hcount].
    unfold loadBody. destruct (googleMaps (runCleanup pg h)); [done|].
    destruct (isEmptyString key) eqn:Hkey; [done|]. simpl.
    rewrite Hhead, Hcount. split; [lia|].
    exists key. split; [done|]. split; [by destruct key|done].
  - destruct (Nat.ltb script (scriptsCreated pg)); simpl; exact IH.
  - destruct (Nat.ltb script (scriptsCreated pg)); simpl; exact IH.
Qed.

(** X11.  However often the key changes, the document head holds at most
    one script of the component: the one appended by the last run of the
    loading effect, whose [src] is the Maps URL followed by that run's key,
    which is not empty.  A run with an empty key, or on a page where Maps
    is already there, leaves no script of the component in the head. *)
Theorem head_holds_at_most_one_script
    (evs : list LoaderEvent) (already : bool) :
  let s := loaderRun evs (mounted already) in
  length (headScripts s.1) ≤ 1
  ∧ (∀ script src, (script, src) ∈ headScripts s.1 →
       hookCleanup s.2 = Some script
       ∧ ∃ key, lastKey evs None = Some key ∧ key ≠ "" ∧ src = mapsUrl key)
  ∧ (lastKey evs None = Some "" → headScripts s.1 = []).
Proof.
  intros s. pose proof (loader_head_invariant evs already) as Hinv.
  cbv zeta in Hinv. subst s.
  destruct (hookCleanup (loaderRun evs (mounted already)).2)
    as [script|] eqn:Hclean.
  - destruct Hinv as (_ & key & Hlast & Hkey & Hhead). rewrite Hhead.
    split; [simpl; lia|]. split.
    + intros script' src [= -> ->]%list_elem_of_singleton. eauto.
    + intros Hempty. congruence.
  - rewrite Hinv. split; [simpl; lia|]. split; [|done].
    by intros script src ?%elem_of_nil.
Qed.

Lemma loaderStep_already s e :
  googleMaps s.1 = true ∧ scriptsCreated s.1 = 0 ∧ headScripts s.1 = []
  ∧ hookError s.2 = None →
  let s' := loaderStep s e in
  (googleMaps s'.1 = true ∧ scriptsCreated s'.1 = 0 ∧ headScripts s'.1 = []
   ∧ hookError s'.2 = None)
  ∧ (hookMapsLoaded s.2 = true → hookMapsLoaded s'.2 = true)
  ∧ (∀ key, e = KeyEffectRuns key → hookMapsLoaded s'.2 = true).
Proof.
  destruct s as [pg h]. simpl. intros (Hg & Hn & Hh & He).
  destruct e as [key|script|script|]; simpl.
  - assert (Hclean : googleMaps (runCleanup pg h) = true
                     ∧ scriptsCreated (runCleanup pg h) = 0
                     ∧ headScripts (runCleanup pg h) = []).
    { unfold runCleanup. destruct (hookCleanup h); simpl; [|done].
      by rewrite Hh. }
    destruct Hclean as (Hg' & Hn' & Hh').
    unfold loadBody. rewrite Hg'. simpl. done.
  - rewrite Hn. simpl. split; [done|]. split; [done|]. by intros key.
  - rewrite Hn. simpl. split; [done|]. split; [done|]. by intros key.
  - split; [done|]. split; [done|]. by intros key.
Qed.

(** X12.  On a page where [window.google.maps] already exists when the
    component mounts, the loading effect never creates a script element
    and never records an error, whatever the key, an empty key included;
    and from its first run on Maps is reported as loaded. *)
Theorem maps_already_there_needs_no_script_and_no_key
    (evs : list LoaderEvent) :
  let s := loaderRun evs (mounted true) in
  scriptsCreated s.1 = 0
  ∧ headScripts s.1 = []
  ∧ hookError s.2 = None
  ∧ (∀ key, lastKey evs None = Some key → hookMapsLoaded s.2 = true).
Proof.
  intros s. subst s.
  assert (H : (googleMaps (loaderRun evs (mounted true)).1 = true
               ∧ scriptsCreated (loaderRun evs (mounted true)).1 = 0
               ∧ headScripts (loaderRun evs (mounted true)).1 = []
               ∧ hookError (loaderRun evs (mounted true)).2 = None)
              ∧ ∀ key, lastKey evs None = Some key →
                       hookMapsLoaded (loaderRun evs (mounted true)).2 = true).
  { induction evs as [|e evs [IH1 IH2]] using rev_ind; [done|].
    rewrite loaderRun_snoc, lastKey_snoc.
    destruct (loaderStep_already (loaderRun evs (mounted true)) e IH1)
      as (H1 & H2 & H3).
    split; [exact H1|]. intros key Hkey.
    destruct e as [k|script|script|].
    - by apply (H3 k).
    - apply H2. by apply (IH2 key).
    - apply H2. by apply (IH2 key).
    - apply H2. by apply (IH2 key). }
  destruct H as ((_ & Hn & Hh & He) & Hl). done.
Qed.

(** * Order of arrival *)

(** X13.  What a pass shows once all its requests are answered does not
    depend on the order in which the geocoder answered them: started from
    a world with no request in flight, two orders of arrival that both
    answer everything leave the same markers and the same circles on the
    map, up to their order in the holding lists. *)
Theorem shown_overlays_do_not_depend_on_arrival_order
    (evs0 : list Event) (inp : Inputs) (geo : Geocoder)
    (order1 order2 : list nat) :
  ready inp = true →
  let w0 := run evs0 initialWorld in
  inflight w0 = [] →
  let w1 := settle geo order1 (syncEffect inp w0) in
  let w2 := settle geo order2 (syncEffect inp w0) in
  inflight w1 = [] →
  inflight w2 = [] →
  shownMarkers w1 ≡ₚ shownMarkers w2 ∧ shownCircles w1 ≡ₚ shownCircles w2.
Proof.
  intros Hready w0 Hq0 w1 w2 Hq1 Hq2.
  pose proof (Inv_reachable evs0) as HI0. fold w0 in HI0.
  destruct (settled_pass_shows inp geo order1 w0 HI0 Hready Hq0 Hq1)
    as [Hm1 Hc1].
  destruct (settled_pass_shows inp geo order2 w0 HI0 Hready Hq0 Hq2)
    as [Hm2 Hc2].
  fold w1 in Hm1, Hc1. fold w2 in Hm2, Hc2.
  split; [by rewrite Hm1, Hm2 | by rewrite Hc1, Hc2].
Qed.

Lemma shown_overlays_do_not_depend_on_arrival_order_witness :
  let geo := DemoService.everywhere in
  let w1 := settle geo [0; 0] (syncEffect Demo.twoAndOne initialWorld) in
  let w2 := settle geo [1; 0] (syncEffect Demo.twoAndOne initialWorld) in
  shownMarkers w1 ≡ₚ shownMarkers w2.
Proof.
  destruct (shown_overlays_do_not_depend_on_arrival_order [] Demo.twoAndOne
              DemoService.everywhere [0; 0] [1; 0]
              eq_refl eq_refl eq_refl eq_refl) as [Hm _].
  exact Hm.
Defined.

(** * The custom properties *)

Import Config.

Lemma getTableByNameIfExists_elem base n t :
  getTableByNameIfExists base n = Some t → t ∈ base.
Proof.
  intros H. apply List.find_some in H as [H _]. by apply list_elem_of_In.
Qed.

Lemma getFieldByNameIfExists_elem t n f :
  getFieldByNameIfExists t n = Some f → f ∈ tableFields t.
Proof.
  intros H. apply List.find_some in H as [H _]. by apply list_elem_of_In.
Qed.

Lemma orElse_Some {A} (a b : option A) x :
  orElse a b = Some x → a = Some x ∨ b = Some x.
Proof. destruct a; simpl; auto. Qed.

(** X14.  [getCustomProperties] throws exactly on a base without tables
    (the table a field property is bound to is then undefined).  On any
    other base it returns the eleven properties, in the order of the
    source, and both table properties have a default, which is a table of
    the base. *)
Theorem custom_properties_need_a_table (base : Base) :
  (getCustomProperties base = Throw "TypeError" ↔ base = [])
  ∧ (base ≠ [] →
     ∃ props requirements listings,
       getCustomProperties base = Ret props
       ∧ map key props
         = ["VESPER_GOOGLE_API"; "requirementsTable"; "listingsTable";
            "requirementAddressField"; "listingAddressField";
            "listingUrlField"; "listingDistanceField";
            "listingDriveTimeField"; "listingRequirementsField";
            "listingImageUrlField"; "listingPropertyTypeField"]
       ∧ defaultTable <$> props !! 1 = Some (Some requirements)
       ∧ defaultTable <$> props !! 2 = Some (Some listings)
       ∧ requirements ∈ base ∧ listings ∈ base).
Proof.
  destruct base as [|t rest].
  - split; [done|]. by intros [].
  - assert (Hreq : ∃ rt, orElse (getTableByNameIfExists (t :: rest)
                                   "Requirements") ((t :: rest) !! 0)
                         = Some rt ∧ rt ∈ t :: rest).
    { destruct (getTableByNameIfExists (t :: rest) "Requirements")
        as [rt|] eqn:Hf; simpl.
      - exists rt. split; [done|]. by eapply getTableByNameIfExists_elem.
      - exists t. split; [done|]. by left. }
    assert (Hlst : ∃ lt, orElse (orElse (getTableByNameIfExists (t :: rest)
                                           "Listings") ((t :: rest) !! 1))
                           ((t :: rest) !! 0)
                         = Some lt ∧ lt ∈ t :: rest).
    { destruct (getTableByNameIfExists (t :: rest) "Listings")
        as [lt|] eqn:Hf; simpl.
      - exists lt. split; [done|]. by eapply getTableByNameIfExists_elem.
      - destruct rest as [|t' rest']; simpl.
        + exists t. split; [done|]. by left.
        + exists t'. split; [done|]. right. by left. }
    destruct Hreq as (rt & Hrt & Hrin). destruct Hlst as (lt & Hlt & Hlin).
    unfold getCustomProperties. cbv zeta. rewrite Hrt, Hlt.
    split; [done|]. intros _. eexists _, rt, lt.
    split; [reflexivity|]. by repeat split.
Qed.

Lemma custom_properties_need_a_table_witness :
  ∃ props, getCustomProperties [{| tableName := "Sites"; tableFields := [] |}]
           = Ret props ∧ length props = 11.
Proof.
  destruct (custom_properties_need_a_table
              [{| tableName := "Sites"; tableFields := [] |}]) as [_ H].
  destruct (H ltac:(discriminate)) as (props & _ & _ & Hp & Hk & _).
  exists props. split; [exact Hp|].
  rewrite <- (length_map key), Hk. reflexivity.
Defined.

(** X15.  Every default the properties propose is taken from the table the
    property is bound to: the Requirement address role is bound to the
    default Requirements table and every Listing role to the default
    Listings table, and a default field, when there is one, is a field of
    that table.  In a base with a single table both table defaults are
    that table. *)
Theorem default_fields_come_from_the_bound_table
    (base : Base) (props : list Property) :
  getCustomProperties base = Ret props →
  ∃ requirements listings,
    defaultTable <$> props !! 1 = Some (Some requirements)
    ∧ defaultTable <$> props !! 2 = Some (Some listings)
    ∧ (∀ p t, p ∈ props → boundTable p = Some t →
         t = (if String.eqb (key p) "requirementAddressField"
              then requirements else listings)
         ∧ ∀ f, defaultField p = Some f → f ∈ tableFields t)
    ∧ (∀ t, base = [t] → requirements = t ∧ listings = t).
Proof.
  unfold getCustomProperties. cbv zeta.
  destruct (orElse (getTableByNameIfExists base "Requirements") (base !! 0))
    as [rt|] eqn:Hrt; [|done].
  destruct (orElse (orElse (getTableByNameIfExists base "Listings")
                      (base !! 1)) (base !! 0)) as [lt|] eqn:Hlt; [|done].
  intros [= <-]. exists rt, lt.
  split; [done|]. split; [done|]. split.
  - intros p t Hp Hbound.
    repeat (apply elem_of_cons in Hp as [->|Hp]);
      try (by apply elem_of_nil in Hp);
      cbn in Hbound; simplify_eq; (split; [reflexivity|]);
      cbn; intros f Hf;
      repeat (apply orElse_Some in Hf as [Hf|Hf]);
      by eapply getFieldByNameIfExists_elem.
  - intros t ->. simpl in *.
    destruct (String.eqb (tableName t) "Requirements"),
      (String.eqb (tableName t) "Listings"); simpl in *; by simplify_eq.
Qed.

Lemma default_fields_come_from_the_bound_table_witness :
  getFieldByNameIfExists demoRequirements "Address" = Some demoAddress
  ∧ demoAddress ∈ tableFields demoRequirements.
Proof.
  destruct (default_fields_come_from_the_bound_table demoBase _ eq_refl)
    as (requirements & listings & _ & _ & Hall & _).
  destruct (Hall {| key := "requirementAddressField";
                    label := "Requirement Address Field";
                    kind := FieldProperty demoRequirements isText
                              (Some demoAddress) |}
              demoRequirements) as [_ Hfield].
  - apply list_elem_of_lookup. exists 3. reflexivity.
  - reflexivity.
  - split; [reflexivity|]. exact (Hfield demoAddress eq_refl).
Defined.

(** * The property-type badge *)

Lemma toLowerCase_app s1 s2 :
  toLowerCase (s1 +:+ s2) = toLowerCase s1 +:+ toLowerCase s2.
Proof.
  induction s1 as [|a s1 IH]; [done|].
  rewrite append_cons. cbn [toLowerCase]. by rewrite IH.
Qed.

Lemma prefix_app n s : String.prefix n (n +:+ s) = true.
Proof.
  induction n as [|a n IH]; [by destruct s|].
  rewrite append_cons. cbn [String.prefix].
  destruct (ascii_dec a a); [exact IH|done].
Qed.

Lemma includes_prefix n s : String.prefix n s = true → includes n s = true.
Proof. intros H. destruct s; cbn [includes]; by rewrite H. Qed.

Lemma includes_app n s1 s2 : includes n (s1 +:+ n +:+ s2) = true.
Proof.
  induction s1 as [|a s1 IH].
  - change ("" +:+ n +:+ s2) with (n +:+ s2).
    apply includes_prefix, prefix_app.
  - rewrite append_cons. cbn [includes]. rewrite IH. apply orb_true_r.
Qed.

Lemma prefix_split n s :
  String.prefix n s = true → ∃ after, s = n +:+ after.
Proof.
  revert s. induction n as [|a n IH]; intros s; [by exists s|].
  destruct s as [|b s]; cbn [String.prefix]; [done|].
  destruct (ascii_dec a b) as [->|]; [|done].
  intros (after & ->)%IH. by exists after.
Qed.

Lemma includes_split n s :
  includes n s = true → ∃ before after, s = before +:+ n +:+ after.
Proof.
  induction s as [|b s IH]; cbn [includes].
  - rewrite orb_false_r. intros (after & ->)%prefix_split. by exists "", after.
  - intros [(after & Heq)%prefix_split|(before & after & ->)%IH]%orb_true_iff.
    + by exists "", after.
    + by exists (String b before), after.
Qed.

Lemma toLowerCase_split s x y :
  toLowerCase s = x +:+ y →
  ∃ s1 s2, s = s1 +:+ s2 ∧ toLowerCase s1 = x ∧ toLowerCase s2 = y.
Proof.
  revert s. induction x as [|c x IH]; intros s.
  - by exists "", s.
  - rewrite append_cons. destruct s as [|d s]; [done|]. cbn [toLowerCase].
    intros [= Hc (s1 & s2 & -> & <- & <-)%IH].
    exists (String d s1), s2. by rewrite <- Hc.
Qed.

Lemma sameLetter_toLowerAscii d : sameLetter (toLowerAscii d) d = true.
Proof. destruct d as [[] [] [] [] [] [] [] []]; reflexivity. Qed.

Lemma spells_toLowerCase w : spells (toLowerCase w) w = true.
Proof.
  induction w as [|d w IH]; [done|].
  cbn [toLowerCase spells]. by rewrite sameLetter_toLowerAscii, IH.
Qed.

Lemma sameLetter_lower c d :
  sameLetter c d = true → toLowerAscii c = c → toLowerAscii d = c.
Proof.
  unfold sameLetter.
  intros [->%Ascii.eqb_eq|[[Hlo Hhi]%andb_true_iff Hd%Nat.eqb_eq]%andb_true_iff]
    %orb_true_iff Hc; [done|].
  apply Nat.leb_le in Hlo, Hhi. unfold toLowerAscii.
  assert (H1 : Nat.leb 65 (nat_of_ascii d) = true) by (apply Nat.leb_le; lia).
  assert (H2 : Nat.leb (nat_of_ascii d) 90 = true) by (apply Nat.leb_le; lia).
  rewrite H1, H2, Hd. simpl. apply ascii_nat_embedding.
Qed.

Lemma spells_lower l w :
  spells l w = true → toLowerCase l = l → toLowerCase w = l.
Proof.
  revert w. induction l as [|c l IH]; intros [|d w]; cbn [spells]; try done.
  intros [Hc Hw]%andb_true_iff. cbn [toLowerCase]. intros [= Hlc Hll].
  by rewrite (sameLetter_lower c d Hc Hlc), (IH w Hw Hll).
Qed.

(** Containing a small-letter word in any letter case is what the test on
    the lower-cased text decides. *)
Lemma containsWord_includes l s :
  toLowerCase l = l →
  containsWord l s ↔ includes l (toLowerCase s) = true.
Proof.
  intros Hl. split.
  - intros (before & word & after & -> & Hw).
    rewrite !toLowerCase_app, (spells_lower l word Hw Hl).
    apply includes_app.
  - intros (x & y & Hsplit)%includes_split.
    apply toLowerCase_split in Hsplit as (before & rest & -> & _ & Hrest).
    apply toLowerCase_split in Hrest as (word & after & -> & Hword & _).
    exists before, word, after. split; [done|].
    rewrite <- Hword. apply spells_toLowerCase.
Qed.

(** X16.  For a property type that is not empty and is written in ASCII,
    the badge uses one of three colour triples, always as a whole.  A type
    containing the word parking anywhere, its letters small or capital in
    any mix, gets the yellow triple, even when it also contains land; a
    type containing land in that sense but not parking gets the blue one;
    a type containing neither gets the green one. *)
Theorem property_type_badge_is_one_of_three (propertyType : string) :
  propertyType ≠ "" →
  isAsciiString propertyType = true →
  (containsWord "parking" propertyType →
     propertyTypeBadge propertyType = yellowBadge)
  ∧ (¬ containsWord "parking" propertyType →
     containsWord "land" propertyType →
     propertyTypeBadge propertyType = blueBadge)
  ∧ (¬ containsWord "parking" propertyType →
     ¬ containsWord "land" propertyType →
     propertyTypeBadge propertyType = greenBadge).
Proof.
  intros _ _.
  pose proof (containsWord_includes "parking" propertyType eq_refl) as Hp.
  pose proof (containsWord_includes "land" propertyType eq_refl) as Hl.
  unfold propertyTypeBadge.
  destruct (includes "parking" (toLowerCase propertyType));
    destruct (includes "land" (toLowerCase propertyType));
    repeat split; intros; try done; exfalso; intuition congruence.
Qed.

Lemma property_type_badge_is_one_of_three_witness :
  propertyTypeBadge "Land with PaRkInG" = yellowBadge
  ∧ propertyTypeBadge "LAND" = blueBadge.
Proof.
  split.
  - destruct (property_type_badge_is_one_of_three "Land with PaRkInG"
                ltac:(discriminate) eq_refl) as (Hyellow & _).
    apply Hyellow. exists "Land with ", "PaRkInG", "". by split.
  - destruct (property_type_badge_is_one_of_three "LAND"
                ltac:(discriminate) eq_refl) as (_ & Hblue & _).
    apply Hblue.
    + intros Hc. apply (containsWord_includes "parking" "LAND" eq_refl) in Hc.
      discriminate Hc.
    + exists "", "LAND", "". by split.
Defined.
